(** * cmdParse: a shallow embedding of the command-line parser

    The development follows [src/string_utils.h] and [src/cmdparse.h]:
    - [StringUtils] embeds the narrow-string helpers of
      [WGT::string_utils];
    - [cmdOption] and its accessors embed [struct cmdOption];
    - the [std::set<cmdOption>] registry is a list kept in the order of
      [operator<], with [set_find], [set_insert] and [set_erase];
    - [cmdParse] embeds the parser class, its state threaded explicitly.

    A [std::string] is a [list ascii].  An iterator into a sequence is the
    range that starts at it (the elements from the iterator up to the end
    of the container); [end()] is the empty range.  Operations the C++
    standard leaves undefined do not return: they are an [Undefined]
    outcome carrying the reason. *)

From Stdlib Require Import String Ascii ZArith NArith Lia Bool Arith List.
From Stdlib Require Import Permutation.
From Equations Require Import Equations.
Import ListNotations.

(** ** Text *)

Definition str := list ascii.

Definition lit (s : string) : str := list_ascii_of_string s.

Definition code (c : ascii) : N := N_of_ascii c.

Definition NUL : ascii := ascii_of_N 0.
Definition newline : ascii := ascii_of_N 10.
Definition dquote : ascii := ascii_of_N 34.

(** [s[i]] on a [std::string]: defined for [i <= size()], where
    [s[size()]] is the terminating NUL. *)
Definition index (s : str) (i : nat) : ascii := nth i s NUL.

Fixpoint str_eqb (a b : str) : bool :=
  match a, b with
  | [], [] => true
  | x :: a', y :: b' => Ascii.eqb x y && str_eqb a' b'
  | _, _ => false
  end.

(** [std::string::operator<]: lexicographic, characters compared as
    unsigned bytes ([char_traits<char>::lt]). *)
Fixpoint str_ltb (a b : str) : bool :=
  match a, b with
  | _, [] => false
  | [], _ :: _ => true
  | x :: a', y :: b' =>
      if N.ltb (code x) (code y) then true
      else if N.ltb (code y) (code x) then false
      else str_ltb a' b'
  end.

(** ** Outcomes *)

Inductive fault : Type :=
| iterator_past_end   (* an iterator equal to end() was advanced *)
| argv_out_of_bounds. (* argv[n] read with n beyond the token array *)

Inductive outcome (A : Type) : Type :=
| Returns (a : A)
| Undefined (why : fault).

Arguments Returns {A} a.
Arguments Undefined {A} why.

Definition bind {A B} (m : outcome A) (k : A -> outcome B) : outcome B :=
  match m with
  | Returns a => k a
  | Undefined f => Undefined f
  end.

Notation "x <- m ;; k" := (bind m (fun x => k))
  (at level 61, m at next level, right associativity).

(** ** Iterators and [std::find_if] *)

(** [find_if p l] is the range starting at the first element that
    satisfies [p] ([[]] when there is none, i.e. the end iterator);
    [upto p l] is the range that was skipped. *)
Fixpoint find_if {A} (p : A -> bool) (l : list A) : list A :=
  match l with
  | [] => []
  | x :: r => if p x then l else find_if p r
  end.

Fixpoint upto {A} (p : A -> bool) (l : list A) : list A :=
  match l with
  | [] => []
  | x :: r => if p x then [] else x :: upto p r
  end.

(** The elements of [[first, last)], for [last] an iterator of the range
    that starts at [first]. *)
Definition range {A} (first last : list A) : list A :=
  firstn (length first - length last) first.

(** [it + 1]: undefined at [end()]. *)
Definition next {A} (it : list A) : outcome (list A) :=
  match it with
  | [] => Undefined iterator_past_end
  | _ :: r => Returns r
  end.

(** ** string_utils.h *)

Module StringUtils.

(** [std::isspace] and [std::tolower] in the "C" locale, on the value of
    the character as an unsigned byte (bytes above 127 are neither white
    space nor upper case). *)
Definition isspace (c : ascii) : bool :=
  N.eqb (code c) 32 || (N.leb 9 (code c) && N.leb (code c) 13).

Definition tolower (c : ascii) : ascii :=
  if N.leb 65 (code c) && N.leb (code c) 90
  then ascii_of_N (code c + 32) else c.

Definition make_lower (s : str) : str := map tolower s.

Definition toupper (c : ascii) : ascii :=
  if N.leb 97 (code c) && N.leb (code c) 122
  then ascii_of_N (code c - 32) else c.

Definition make_upper (s : str) : str := map toupper s.

Definition ltrim (s : str) : str :=
  find_if (fun ch => negb (isspace ch)) s.

Definition ltrim_c (s : str) (c : ascii) : str :=
  find_if (fun ch => negb (Ascii.eqb ch c)) s.

(** [s.erase(std::find_if(s.rbegin(), s.rend(), p).base(), s.end())] *)
Definition erase_after_last (p : ascii -> bool) (s : str) : str :=
  rev (find_if p (rev s)).

Definition trim (s : str) (c : ascii) : str :=
  if Ascii.eqb c " " then
    erase_after_last (fun ch => negb (isspace ch)) (ltrim s)
  else
    erase_after_last (fun ch => negb (Ascii.eqb ch c)) (ltrim_c s c).

Definition is_blank (s : str) : bool := forallb isspace s.

End StringUtils.

Import StringUtils.

(** ** struct cmdOption *)

Record cmdOption : Type := Build_cmdOption {
  longName : str;
  shortName : str;
  defaultValue : str;
  paramValue : str
}.

(** The constructor [cmdOption(optionName, defaultValue, optionNameShort)]. *)
Definition make_cmdOption (optionName defaultVal optionNameShort : str)
  : cmdOption :=
  {| longName := optionName;
     shortName := if is_blank optionNameShort then optionName
                  else optionNameShort;
     defaultValue := defaultVal;
     paramValue := [] |}.

(** The default constructor. *)
Definition empty_cmdOption : cmdOption :=
  {| longName := []; shortName := []; defaultValue := []; paramValue := [] |}.

Definition set_paramValue (o : cmdOption) (v : str) : cmdOption :=
  {| longName := longName o; shortName := shortName o;
     defaultValue := defaultValue o; paramValue := v |}.

(** [cmdOption::operator<] *)
Definition option_lt (a b : cmdOption) : bool :=
  str_ltb (make_lower (longName a)) (make_lower (longName b)).

(** [get_value<std::string>]: the primary template,
    [std::istringstream ss(paramValue); ss >> retVal], which skips leading
    white space and extracts up to the next white space. *)
Definition get_value_string (o : cmdOption) : str :=
  upto isspace (find_if (fun ch => negb (isspace ch)) (paramValue o)).

Inductive conversion : Type :=
| Value (z : Z)
| invalid_argument
| out_of_range.

Definition isdigit (c : ascii) : bool :=
  N.leb 48 (code c) && N.leb (code c) 57.

Fixpoint digits_value (acc : Z) (l : str) : Z :=
  match l with
  | [] => acc
  | c :: r => if isdigit c
              then digits_value (10 * acc + (Z.of_N (code c) - 48)) r
              else acc
  end.

Definition c_str (s : str) : str := upto (Ascii.eqb NUL) s.

(** [std::stoi]: [strtol] in base 10, [invalid_argument] when no digit is
    read, [out_of_range] outside of [int]. *)
Definition stoi (s : str) : conversion :=
  let s1 := find_if (fun ch => negb (isspace ch)) s in
  let '(negative, s2) :=
    match s1 with
    | c :: r => if Ascii.eqb c "-" then (true, r)
                else if Ascii.eqb c "+" then (false, r)
                else (false, s1)
    | [] => (false, s1)
    end in
  match s2 with
  | [] => invalid_argument
  | c :: _ =>
      if isdigit c then
        let v := digits_value 0 s2 in
        let v := if negative then (- v)%Z else v in
        if ((-2147483648 <=? v) && (v <=? 2147483647))%Z
        then Value v else out_of_range
      else invalid_argument
  end.

(** [get_value<int>] *)
Definition get_value_int (o : cmdOption) : conversion :=
  stoi (c_str (paramValue o)).

Definition has_value (o : cmdOption) : bool := is_blank (paramValue o).

(** ** std::set<cmdOption> *)

(** An iterator returned by [find]: the elements before it, the element
    it designates and the elements after it. *)
Definition set_iterator : Type :=
  (list cmdOption * cmdOption * list cmdOption)%type.

Fixpoint set_find (k : cmdOption) (s : list cmdOption) : option set_iterator :=
  match s with
  | [] => None
  | x :: r =>
      if option_lt x k then
        match set_find k r with
        | Some (b, o, a) => Some (x :: b, o, a)
        | None => None
        end
      else if option_lt k x then None
      else Some ([], x, r)
  end.

Definition set_erase (it : set_iterator) : list cmdOption :=
  let '(b, _, a) := it in b ++ a.

Fixpoint set_insert (o : cmdOption) (s : list cmdOption)
  : list cmdOption * bool :=
  match s with
  | [] => ([o], true)
  | x :: r =>
      if option_lt o x then (o :: s, true)
      else if option_lt x o then
        let '(r', inserted) := set_insert o r in (x :: r', inserted)
      else (s, false)
  end.

(** The representation invariant of the set: strictly increasing for
    [operator<]. *)
Fixpoint set_ok (s : list cmdOption) : bool :=
  match s with
  | [] => true
  | x :: r => forallb (option_lt x) r && set_ok r
  end.

(** ** class cmdParse *)

Record cmdParse : Type := Build_cmdParse {
  m_executable_name : str;
  m_arguments : list str;
  m_parameter_options : list cmdOption;
  m_errors : list str
}.

(** The default-constructed parser. *)
Definition new_cmdParse : cmdParse :=
  {| m_executable_name := []; m_arguments := [];
     m_parameter_options := []; m_errors := [] |}.

Definition logError (st : cmdParse) (error : str) : cmdParse :=
  {| m_executable_name := m_executable_name st;
     m_arguments := m_arguments st;
     m_parameter_options := m_parameter_options st;
     m_errors := m_errors st ++ [error] |}.

Definition set_executable_name (st : cmdParse) (name : str) : cmdParse :=
  {| m_executable_name := name;
     m_arguments := m_arguments st;
     m_parameter_options := m_parameter_options st;
     m_errors := m_errors st |}.

Definition push_argument (st : cmdParse) (arg : str) : cmdParse :=
  {| m_executable_name := m_executable_name st;
     m_arguments := m_arguments st ++ [arg];
     m_parameter_options := m_parameter_options st;
     m_errors := m_errors st |}.

Definition set_parameter_options (st : cmdParse) (s : list cmdOption)
  : cmdParse :=
  {| m_executable_name := m_executable_name st;
     m_arguments := m_arguments st;
     m_parameter_options := s;
     m_errors := m_errors st |}.

Definition add_param_option (st : cmdParse) (paramOption : cmdOption)
  : bool * cmdParse :=
  let '(s, inserted) := set_insert paramOption (m_parameter_options st) in
  let st := set_parameter_options st s in
  if inserted then (true, st)
  else (false, logError st (lit "Option already exists: "
                              ++ longName paramOption)).

(** The constructor from a vector of options. *)
Definition cmdParse_of (optionVec : list cmdOption) : cmdParse :=
  fold_left (fun st o => snd (add_param_option st o)) optionVec new_cmdParse.

Definition get_arguments (st : cmdParse) : list str := m_arguments st.

Definition get_param_option_count (st : cmdParse) : Z :=
  Z.of_nat (length (m_parameter_options st)).

Definition has_param_option (st : cmdParse) (optionName : str) : bool :=
  match set_find (make_cmdOption optionName [] []) (m_parameter_options st) with
  | None => false
  | Some _ => true
  end.

Definition get_param_option (st : cmdParse) (optionStr : str) : cmdOption :=
  match set_find (make_cmdOption optionStr [] []) (m_parameter_options st) with
  | None => empty_cmdOption
  | Some (_, o, _) => o
  end.

Definition help_line (o : cmdOption) : str :=
  lit "    -" ++ shortName o ++ lit ", --" ++ longName o ++ [newline].

Definition get_helpstring (st : cmdParse) : str :=
  fold_left (fun helpString o => helpString ++ help_line o)
    (m_parameter_options st)
    (m_executable_name st ++ lit " [options]" ++ [newline]
       ++ lit " where options are:" ++ [newline])
  ++ [newline; newline] ++ lit "(version 1.0)".

Definition has_errors (st : cmdParse) : bool :=
  match m_errors st with [] => false | _ => true end.

Definition clear_errors (st : cmdParse) : cmdParse :=
  {| m_executable_name := m_executable_name st;
     m_arguments := m_arguments st;
     m_parameter_options := m_parameter_options st;
     m_errors := [] |}.

Definition get_errors (st : cmdParse) : list str := m_errors st.

Fixpoint getFullOptionName (s : list cmdOption) (short : str) : str :=
  match s with
  | [] => []
  | option :: r => if str_eqb (shortName option) short then longName option
                   else getFullOptionName r short
  end.

(** *** parseOptions *)

Definition isOptionPrefix (s : str) : bool := Ascii.eqb (index s 0) "-".

Definition is_delimiter (c : ascii) : bool :=
  Ascii.eqb c " " || Ascii.eqb c ":" || Ascii.eqb c "=".

(** The two loops that copy the name and the value out of the stripped
    segment: the name is the range before [value_iterator], the value is
    the range from [value_iterator + 1]. *)
Definition split_name_value (fullOptionString : str) : outcome (str * str) :=
  let value_iterator := find_if is_delimiter fullOptionString in
  let name := range fullOptionString value_iterator in
  value <- next value_iterator ;;
  Returns (name, value).

(** What one turn of the [while] loop does once the segment is
    concatenated: go on with the next segment, or [return]. *)
Inductive flow : Type :=
| Continue (st : cmdParse)
| Return (b : bool) (st : cmdParse).

(** The body of the loop after the concatenation of the segment:
    classification, name/value split, trimming, short-name resolution and
    the update of the set.  In the short-name branch the source assigns
    the result of [getFullOptionName] to [name] before it tests
    [name.empty()] and builds the error from [name]. *)
Definition update_option (fullOptionString : str) (st : cmdParse)
  : outcome flow :=
  let useFullOptionName :=
    Ascii.eqb (index fullOptionString 0) "-"
    && Ascii.eqb (index fullOptionString 1) "-" in
  let fullOptionString := ltrim_c fullOptionString "-" in
  nv <- split_name_value fullOptionString ;;
  let name := trim (fst nv) " " in
  let value := trim (snd nv) " " in
  let value := trim value dquote in
  let resolved :=
    if useFullOptionName then inr name
    else
      let name := getFullOptionName (m_parameter_options st) name in
      match name with
      | [] => inl (logError st (lit "Option not found: " ++ name))
      | _ => inr name
      end in
  match resolved with
  | inl st => Returns (Return false st)
  | inr name =>
      match set_find (make_cmdOption name [] []) (m_parameter_options st) with
      | None =>
          Returns (Return false (logError st (lit "Option not found: " ++ name)))
      | Some itF =>
          let updatedOption := set_paramValue (snd (fst itF)) value in
          let s := set_erase itF in
          Returns (Continue
                     (set_parameter_options st (fst (set_insert updatedOption s))))
      end
  end.

Definition inspect {A} (a : A) : {b : A | a = b} := exist _ a eq_refl.

(** The [while] loop of [parseOptions], from [cursor_iterator] to
    [m_arguments.end()].  The source computes [start], then
    [end = find_if(start + 1, ...)], and only then tests
    [start == m_arguments.end()]: when [start] is the end iterator
    [start + 1] has already been evaluated, so the [break] that follows is
    never reached with a defined state.  The segment is the concatenation
    of the tokens of [[start, end)]; the next turn starts at [end]. *)
Equations? parse_loop (cursor_iterator : list str) (st : cmdParse)
  : outcome (bool * cmdParse) by wf (length cursor_iterator) lt :=
  parse_loop [] st := Returns (true, st);
  parse_loop cursor st with inspect (find_if isOptionPrefix cursor) => {
    | exist _ start Hstart with inspect (next start) => {
      | exist _ (Undefined f) _ := Undefined f;
      | exist _ (Returns start1) Hnext
          with update_option
                 (concat (range start (find_if isOptionPrefix start1))) st => {
        | Undefined f := Undefined f;
        | Returns (Return b st') := Returns (b, st');
        | Returns (Continue st') :=
            parse_loop (find_if isOptionPrefix start1) st' } } }.
Proof.
  change (if isOptionPrefix s then s :: l else find_if isOptionPrefix l)
    with (find_if isOptionPrefix (s :: l)) in Hnext.
  assert (find_if_le : forall c : list str,
             length (find_if isOptionPrefix c) <= length c).
  { induction c as [|x r IH]; simpl; [lia|].
    destruct (isOptionPrefix x); simpl; lia. }
  pose proof (find_if_le (s :: l)) as Hle.
  destruct (find_if isOptionPrefix (s :: l)) as [|tok tl];
    simpl in Hnext; [discriminate|].
  injection Hnext as <-.
  pose proof (find_if_le tl).
  simpl in *. lia.
Qed.

Definition parseOptions (st : cmdParse) : outcome (bool * cmdParse) :=
  parse_loop (m_arguments st) st.

Fixpoint copy_arguments (count n : nat) (argv : list str) (st : cmdParse)
  : outcome cmdParse :=
  match count with
  | O => Returns st
  | S count' =>
      match nth_error argv n with
      | None => Undefined argv_out_of_bounds
      | Some arg_str =>
          copy_arguments count' (S n) argv (push_argument st (trim arg_str " "))
      end
  end.

Definition init (argc : Z) (argv : list str) (st : cmdParse)
  : outcome (bool * cmdParse) :=
  if (argc <=? 0)%Z then
    Returns (false, logError st (lit "No arguments given to application"))
  else
    match nth_error argv 0 with
    | None => Undefined argv_out_of_bounds
    | Some exe =>
        st <- copy_arguments (Z.to_nat argc - 1) 1 argv
                (set_executable_name st exe) ;;
        parseOptions st
    end.

(** ** Notions used by the statements *)

(** Two options with the same declaration: only the assigned value may
    differ. *)
Definition same_declaration (o o' : cmdOption) : Prop :=
  longName o = longName o' /\ shortName o = shortName o'
  /\ defaultValue o = defaultValue o'.

Definition flow_state (fl : flow) : cmdParse :=
  match fl with
  | Continue st => st
  | Return _ st => st
  end.

(** What a parse leaves in place: the executable name, the raw arguments,
    the declaration of every option (its names and its default) and the
    errors already logged. *)
Definition preserved (st st' : cmdParse) : Prop :=
  m_executable_name st' = m_executable_name st
  /\ m_arguments st' = m_arguments st
  /\ Forall2 same_declaration (m_parameter_options st) (m_parameter_options st')
  /\ exists es, m_errors st' = m_errors st ++ es.

(** A name the parser reads back unchanged: no white space, no delimiter
    and no leading dash. *)
Definition plain_name (L : str) : bool :=
  forallb (fun c => negb (isspace c) && negb (is_delimiter c)) L
  && negb (isOptionPrefix L).

(** Sample parsers of the unit tests. *)
Definition BufferSize : cmdOption :=
  make_cmdOption (lit "BufferSize") (lit "1000") (lit "b").

Definition OutputFile : cmdOption :=
  make_cmdOption (lit "OutputFile") (lit "output.txt") (lit "o").

Definition sample : cmdParse := cmdParse_of [BufferSize; OutputFile].

Definition sample_short : cmdParse :=
  cmdParse_of [make_cmdOption (lit "optionA") (lit "3") (lit "a");
               make_cmdOption (lit "optionB") (lit "45.6") (lit "b")].

(** The effect of the erase and insert that end a turn of the loop, as
    an update in place: the option found under [name] gets the value, the
    others and the order are left alone; nothing changes when no option is
    found. *)
Definition assign_value (s : list cmdOption) (name v : str) : list cmdOption :=
  match set_find (make_cmdOption name [] []) s with
  | Some (b, o, a) => b ++ set_paramValue o v :: a
  | None => s
  end.

(** The value a segment stores: white space trimmed, then quotes. *)
Definition stored_value (v : str) : str := trim (trim v " ") dquote.


(** Characters of the 7-bit set. *)
Definition is_ascii7 (c : ascii) : bool := N.ltb (code c) 128.

(** The case-folded long name under which the set orders an option. *)
Definition key (o : cmdOption) : str := make_lower (longName o).



(** ** string_utils.h, the [std::wstring] overloads *)

(** A [wchar_t] is its code unit; [std::iswspace], [std::towlower] and
    [std::towupper] depend on the C library and its locale and are taken as
    they come.  The character argument of the trims ([TCHAR]) is compared
    with the elements by value. *)
Module WideStringUtils.
Section Classification.

Variable iswspace : N -> bool.
Variable towlower : N -> N.
Variable towupper : N -> N.

Definition wstr := list N.

Definition wspace : N := 32.

Definition make_lower (s : wstr) : wstr := map towlower s.

Definition make_upper (s : wstr) : wstr := map towupper s.

Definition ltrim (s : wstr) : wstr :=
  find_if (fun ch => negb (iswspace ch)) s.

Definition ltrim_c (s : wstr) (c : N) : wstr :=
  find_if (fun ch => negb (N.eqb ch c)) s.

Definition rtrim (s : wstr) : wstr :=
  rev (find_if (fun ch => negb (iswspace ch)) (rev s)).

Definition rtrim_c (s : wstr) (c : N) : wstr :=
  rev (find_if (fun ch => negb (N.eqb ch c)) (rev s)).

Definition trim (s : wstr) (c : N) : wstr :=
  if N.eqb c wspace then rtrim (ltrim s) else rtrim_c (ltrim_c s c) c.

Definition is_blank (s : wstr) : bool := forallb iswspace s.

End Classification.
End WideStringUtils.

(** The segments of a list of stored arguments, as [parseOptions] forms
    them: every token that starts with a dash opens a segment, and the
    tokens that follow it up to the next such token are appended to it;
    the tokens before the first dash token belong to no segment.
    [group] returns the text of the leading tokens without a dash and the
    segments. *)
Fixpoint group (l : list str) : str * list str :=
  match l with
  | [] => ([], [])
  | t :: l' =>
      let '(c, segs) := group l' in
      if isOptionPrefix t then ([], (t ++ c) :: segs) else (t ++ c, segs)
  end.

Definition segments (l : list str) : list str := snd (group l).

(** The option name a segment carries: the trimmed text between the
    leading dashes and the first delimiter, taken as it is for the long
    form and resolved by [getFullOptionName] for the short form.  A
    segment matches an option when this name is the long name of the
    option up to case. *)
Definition segment_name (s : list cmdOption) (seg : str) : str :=
  let name := trim (upto is_delimiter (ltrim_c seg "-")) " " in
  if Ascii.eqb (index seg 0) "-" && Ascii.eqb (index seg 1) "-"
  then name else getFullOptionName s name.

(** * Properties *)

Lemma find_if_length {A} (p : A -> bool) (l : list A) :
  length (find_if p l) <= length l.
Proof.
  induction l as [|x r IH]; simpl; [lia|].
  destruct (p x); simpl; lia.
Qed.

(** ** Text and order *)

Lemma str_eqb_eq (a b : str) : str_eqb a b = true <-> a = b.
Proof.
  revert b; induction a as [|x a IH]; destruct b as [|y b]; simpl;
    try (split; [discriminate | congruence]); try tauto.
  rewrite andb_true_iff, Ascii.eqb_eq, IH.
  split; [intros [-> ->]; reflexivity | intros [= -> ->]; auto].
Qed.

Lemma str_ltb_irrefl (a : str) : str_ltb a a = false.
Proof.
  induction a as [|x a IH]; simpl; [reflexivity|].
  rewrite N.ltb_irrefl. exact IH.
Qed.

Lemma str_ltb_trans (a b c : str) :
  str_ltb a b = true -> str_ltb b c = true -> str_ltb a c = true.
Proof.
  revert b c; induction a as [|x a IH]; intros [|y b] [|z c]; simpl;
    try discriminate; auto.
  destruct (N.ltb_spec (code x) (code y)), (N.ltb_spec (code y) (code x)),
    (N.ltb_spec (code y) (code z)), (N.ltb_spec (code z) (code y)),
    (N.ltb_spec (code x) (code z)), (N.ltb_spec (code z) (code x));
    try discriminate; try lia; auto.
  apply IH.
Qed.

Lemma str_ltb_asym (a b : str) : str_ltb a b = true -> str_ltb b a = false.
Proof.
  intros H. destruct (str_ltb b a) eqn:E; [|reflexivity].
  pose proof (str_ltb_trans _ _ _ H E) as T.
  rewrite str_ltb_irrefl in T. discriminate.
Qed.

Lemma option_lt_trans (a b c : cmdOption) :
  option_lt a b = true -> option_lt b c = true -> option_lt a c = true.
Proof. apply str_ltb_trans. Qed.

Lemma option_lt_asym (a b : cmdOption) :
  option_lt a b = true -> option_lt b a = false.
Proof. apply str_ltb_asym. Qed.

(** [operator<] reads the long name only. *)
Lemma option_lt_longName_l (a a' b : cmdOption) :
  longName a = longName a' -> option_lt a b = option_lt a' b.
Proof. unfold option_lt; intros ->; reflexivity. Qed.

Lemma option_lt_longName_r (a b b' : cmdOption) :
  longName b = longName b' -> option_lt a b = option_lt a b'.
Proof. unfold option_lt; intros ->; reflexivity. Qed.

(** ** Iterators *)

Lemma find_if_none {A} (p : A -> bool) (l : list A) :
  Forall (fun x => p x = false) l -> find_if p l = [].
Proof.
  induction 1 as [|x r Hx _ IH]; simpl; [reflexivity|].
  rewrite Hx. exact IH.
Qed.

Lemma upto_none {A} (p : A -> bool) (l : list A) :
  Forall (fun x => p x = false) l -> upto p l = l.
Proof.
  induction 1 as [|x r Hx _ IH]; simpl; [reflexivity|].
  rewrite Hx, IH. reflexivity.
Qed.

Lemma find_if_app {A} (p : A -> bool) (l r : list A) (x : A) :
  Forall (fun y => p y = false) l -> p x = true ->
  find_if p (l ++ x :: r) = x :: r.
Proof.
  induction 1 as [|y l Hy _ IH]; simpl; intros Hx.
  - rewrite Hx. reflexivity.
  - rewrite Hy. auto.
Qed.

Lemma upto_app {A} (p : A -> bool) (l r : list A) (x : A) :
  Forall (fun y => p y = false) l -> p x = true ->
  upto p (l ++ x :: r) = l.
Proof.
  induction 1 as [|y l Hy _ IH]; simpl; intros Hx.
  - rewrite Hx. reflexivity.
  - rewrite Hy, IH by assumption. reflexivity.
Qed.

Lemma upto_find_if {A} (p : A -> bool) (l : list A) :
  upto p l ++ find_if p l = l.
Proof.
  induction l as [|x r IH]; simpl; [reflexivity|].
  destruct (p x); simpl; [reflexivity|]. rewrite IH. reflexivity.
Qed.

(** The range from the start of a sequence to the result of [find_if] is
    what [find_if] skipped. *)
Lemma range_find_if {A} (p : A -> bool) (l : list A) :
  range l (find_if p l) = upto p l.
Proof.
  unfold range.
  rewrite <- (upto_find_if p l) at 1 3.
  rewrite length_app, Nat.add_sub, firstn_app, Nat.sub_diag, firstn_all.
  simpl. apply app_nil_r.
Qed.

Lemma range_cons_find_if {A} (p : A -> bool) (x : A) (l : list A) :
  range (x :: l) (find_if p l) = x :: upto p l.
Proof.
  unfold range.
  pose proof (find_if_length p l).
  replace (length (x :: l) - length (find_if p l))
    with (S (length l - length (find_if p l)))
    by (change (length (x :: l)) with (S (length l)); lia).
  simpl. f_equal. apply (range_find_if p l).
Qed.

(** ** The set of options *)

Lemma same_declaration_refl (o : cmdOption) : same_declaration o o.
Proof. repeat split. Qed.

Lemma same_declaration_set (o : cmdOption) (v : str) :
  same_declaration o (set_paramValue o v).
Proof. repeat split. Qed.

Lemma same_declaration_trans (a b c : cmdOption) :
  same_declaration a b -> same_declaration b c -> same_declaration a c.
Proof. unfold same_declaration; intuition congruence. Qed.

Lemma set_find_spec (k : cmdOption) (s : list cmdOption) b o a :
  set_find k s = Some (b, o, a) ->
  s = b ++ o :: a
  /\ Forall (fun x => option_lt x k = true) b
  /\ option_lt o k = false /\ option_lt k o = false.
Proof.
  revert b; induction s as [|x r IH]; simpl; intros b; [discriminate|].
  destruct (option_lt x k) eqn:Hxk.
  - destruct (set_find k r) as [[[b' o'] a']|]; [|discriminate].
    intros [= <- <- <-].
    destruct (IH b' eq_refl) as (-> & Hb & Hok & Hko).
    repeat split; auto.
  - destruct (option_lt k x) eqn:Hkx; [discriminate|].
    intros [= <- <- <-]. repeat split; auto.
Qed.

Lemma set_find_intro (k : cmdOption) b o a :
  Forall (fun x => option_lt x k = true) b ->
  option_lt o k = false -> option_lt k o = false ->
  set_find k (b ++ o :: a) = Some (b, o, a).
Proof.
  intros Hb Hok Hko.
  induction Hb as [|x b Hx _ IH]; simpl.
  - rewrite Hok, Hko. reflexivity.
  - rewrite Hx, IH. reflexivity.
Qed.

Lemma set_ok_app (b a : list cmdOption) (o : cmdOption) :
  set_ok (b ++ o :: a) = true ->
  Forall (fun x => option_lt x o = true) b
  /\ Forall (fun y => option_lt o y = true) a.
Proof.
  induction b as [|x b IH]; simpl; rewrite andb_true_iff.
  - intros [Ha _]. split; [constructor|].
    apply Forall_forall. apply forallb_forall. exact Ha.
  - intros [Hx Hs]. destruct (IH Hs) as [Hb Ha]. split; [|exact Ha].
    constructor; [|exact Hb].
    rewrite forallb_forall in Hx. apply Hx. apply in_elt.
Qed.

(** Erasing the element found and inserting it back with another value
    puts it where it was. *)
Lemma set_insert_back (b a : list cmdOption) (o o' : cmdOption) :
  set_ok (b ++ o :: a) = true -> longName o' = longName o ->
  set_insert o' (b ++ a) = (b ++ o' :: a, true).
Proof.
  intros Hs Hn. destruct (set_ok_app _ _ _ Hs) as [Hb Ha]. clear Hs.
  induction Hb as [|x b Hx _ IH]; simpl.
  - destruct Ha as [|y a Hy _]; simpl; [reflexivity|].
    rewrite (option_lt_longName_l o' o y Hn), Hy. reflexivity.
  - rewrite (option_lt_longName_l o' o x Hn), (option_lt_asym _ _ Hx).
    rewrite (option_lt_longName_r x o' o Hn), Hx, IH. reflexivity.
Qed.

Lemma set_ok_same (s s' : list cmdOption) :
  Forall2 same_declaration s s' -> set_ok s = set_ok s'.
Proof.
  induction 1 as [|x x' r r' Hx Hr IH]; simpl; [reflexivity|].
  rewrite IH. f_equal.
  clear IH. induction Hr as [|y y' r r' Hy _ IH]; simpl; [reflexivity|].
  rewrite IH. f_equal.
  destruct Hx as (Hx & _), Hy as (Hy & _).
  unfold option_lt. rewrite Hx, Hy. reflexivity.
Qed.

Lemma Forall2_same_refl (s : list cmdOption) : Forall2 same_declaration s s.
Proof. induction s; constructor; auto using same_declaration_refl. Qed.

Lemma Forall2_same_trans (s1 s2 s3 : list cmdOption) :
  Forall2 same_declaration s1 s2 -> Forall2 same_declaration s2 s3 ->
  Forall2 same_declaration s1 s3.
Proof.
  intros H; revert s3; induction H; intros s3 H3; inversion H3; subst;
    constructor; eauto using same_declaration_trans.
Qed.

Lemma Forall2_same_update (b a : list cmdOption) (o : cmdOption) (v : str) :
  Forall2 same_declaration (b ++ o :: a) (b ++ set_paramValue o v :: a).
Proof.
  induction b; simpl; constructor;
    auto using same_declaration_refl, same_declaration_set, Forall2_same_refl.
Qed.

(** A lookup reads the long names only: on two sets with the same
    declarations it stops at the same place. *)
Lemma set_find_same (k : cmdOption) (s s' : list cmdOption) :
  Forall2 same_declaration s s' ->
  match set_find k s, set_find k s' with
  | Some (_, o, _), Some (_, o', _) => same_declaration o o'
  | None, None => True
  | _, _ => False
  end.
Proof.
  induction 1 as [|x x' r r' Hx Hr IH]; simpl; [exact I|].
  destruct Hx as (Hn & Hx).
  rewrite <- (option_lt_longName_l x x' k Hn),
    <- (option_lt_longName_r k x x' Hn).
  destruct (option_lt x k).
  - destruct (set_find k r) as [[[? ?] ?]|], (set_find k r') as [[[? ?] ?]|];
      auto.
  - destruct (option_lt k x); [exact I|]. split; assumption.
Qed.

(** ** The parse loop *)

(** One turn of the [while] loop of [parseOptions]. *)
Lemma parse_loop_step (cursor : list str) (st : cmdParse) :
  parse_loop cursor st =
  match cursor with
  | [] => Returns (true, st)
  | _ :: _ =>
      match find_if isOptionPrefix cursor with
      | [] => Undefined iterator_past_end
      | tok :: start1 =>
          match update_option (concat (tok :: upto isOptionPrefix start1)) st with
          | Undefined f => Undefined f
          | Returns (Return b st') => Returns (b, st')
          | Returns (Continue st') =>
              parse_loop (find_if isOptionPrefix start1) st'
          end
      end
  end.
Proof.
  destruct cursor as [|t l]; [reflexivity|].
  simp parse_loop.
  generalize (inspect (find_if isOptionPrefix (t :: l))).
  intros [start Hstart].
  etransitivity; [|rewrite Hstart; reflexivity].
  destruct start as [|tok start1]; simp parse_loop.
  - reflexivity.
  - unfold inspect; cbn [next]. simp parse_loop.
    rewrite range_cons_find_if.
    destruct (update_option _ st) as [[st'|b st']|f]; simp parse_loop;
      reflexivity.
Qed.

Lemma preserved_refl (st : cmdParse) : preserved st st.
Proof.
  repeat split; auto using Forall2_same_refl.
  exists []. symmetry; apply app_nil_r.
Qed.

Lemma preserved_trans (a b c : cmdParse) :
  preserved a b -> preserved b c -> preserved a c.
Proof.
  intros (He & Ha & Ho & es & Hes) (He' & Ha' & Ho' & es' & Hes').
  repeat split; try congruence; eauto using Forall2_same_trans.
  exists (es ++ es'). rewrite Hes', Hes. symmetry; apply app_assoc.
Qed.

Lemma preserved_logError (st : cmdParse) (e : str) :
  preserved st (logError st e).
Proof.
  repeat split; auto using Forall2_same_refl. exists [e]. reflexivity.
Qed.

Lemma preserved_set_ok (st st' : cmdParse) :
  preserved st st' ->
  set_ok (m_parameter_options st') = set_ok (m_parameter_options st).
Proof. intros (_ & _ & Ho & _). symmetry. apply set_ok_same, Ho. Qed.

(** The update at the end of a turn: the option found is erased and
    inserted again with its new value, at the same place. *)
Lemma update_found (st : cmdParse) (k : cmdOption) b o a (v : str) :
  set_ok (m_parameter_options st) = true ->
  set_find k (m_parameter_options st) = Some (b, o, a) ->
  fst (set_insert (set_paramValue o v) (set_erase (b, o, a)))
  = b ++ set_paramValue o v :: a
  /\ m_parameter_options st = b ++ o :: a.
Proof.
  intros Hok Hf. apply set_find_spec in Hf. destruct Hf as (Hs & _).
  split; [|exact Hs]. simpl.
  rewrite (set_insert_back b a o (set_paramValue o v)); [reflexivity| |].
  - rewrite <- Hs. exact Hok.
  - reflexivity.
Qed.

Lemma update_option_preserved (full : str) (st : cmdParse) (fl : flow) :
  set_ok (m_parameter_options st) = true ->
  update_option full st = Returns fl ->
  preserved st (flow_state fl).
Proof.
  intros Hok. unfold update_option.
  destruct (split_name_value _) as [[name value]|f]; simpl; [|discriminate].
  set (v := trim (trim value " ") dquote).
  assert (Hfind : forall n,
    match set_find (make_cmdOption n [] []) (m_parameter_options st) with
    | Some itF =>
        Returns (Continue (set_parameter_options st
          (fst (set_insert (set_paramValue (snd (fst itF)) v) (set_erase itF)))))
    | None => Returns (Return false (logError st (lit "Option not found: " ++ n)))
    end = Returns fl -> preserved st (flow_state fl)).
  { intros n.
    destruct (set_find _ _) as [[[b o] a]|] eqn:Hf; intros [= <-]; simpl.
    - destruct (update_found st _ b o a v Hok Hf) as (Hi & Hs).
      simpl in Hi. rewrite Hi.
      repeat split; simpl.
      + rewrite Hs. apply Forall2_same_update.
      + exists []. symmetry; apply app_nil_r.
    - apply preserved_logError. }
  destruct (_ && _).
  - apply Hfind.
  - destruct (getFullOptionName _ _) as [|c n] eqn:Hn.
    + intros [= <-]. apply preserved_logError.
    + apply Hfind.
Qed.

Lemma parse_loop_preserved (cursor : list str) (st : cmdParse) b st' :
  set_ok (m_parameter_options st) = true ->
  parse_loop cursor st = Returns (b, st') ->
  preserved st st'.
Proof.
  remember (length cursor) as n eqn:Hn.
  revert cursor st Hn.
  induction n as [n IH] using lt_wf_ind. intros cursor st Hn Hok.
  rewrite parse_loop_step.
  destruct cursor as [|t l].
  { intros [= <- <-]. apply preserved_refl. }
  pose proof (find_if_length isOptionPrefix (t :: l)) as Hlen.
  destruct (find_if isOptionPrefix (t :: l)) as [|tok start1]; [discriminate|].
  destruct (update_option _ st) as [[st1|b1 st1]|f] eqn:Hu; [| |discriminate].
  - apply (update_option_preserved _ _ _ Hok) in Hu. simpl in Hu.
    intros Hp. apply (preserved_trans _ _ _ Hu).
    pose proof (find_if_length isOptionPrefix start1).
    apply (IH (length (find_if isOptionPrefix start1))
              ltac:(simpl in *; lia) _ _ eq_refl); [|exact Hp].
    rewrite (preserved_set_ok _ _ Hu). exact Hok.
  - intros [= <- <-].
    apply (update_option_preserved _ _ _ Hok) in Hu. exact Hu.
Qed.

Lemma skipn_nth_error {A} (l : list A) (n : nat) (a : A) :
  nth_error l n = Some a -> skipn n l = a :: skipn (S n) l.
Proof.
  revert n; induction l as [|x l IH]; intros [|n]; simpl; try discriminate.
  - intros [= ->]. reflexivity.
  - intros H. apply IH in H. exact H.
Qed.

(** The [for] loop of [init]: tokens [argv[n]], ..., [argv[n + count - 1]]
    are trimmed and appended to the raw arguments. *)
Lemma copy_arguments_spec (count n : nat) (argv : list str) (st st' : cmdParse) :
  copy_arguments count n argv st = Returns st' ->
  m_executable_name st' = m_executable_name st
  /\ m_parameter_options st' = m_parameter_options st
  /\ m_errors st' = m_errors st
  /\ m_arguments st'
     = m_arguments st ++ map (fun a => trim a " ") (firstn count (skipn n argv))
  /\ length (firstn count (skipn n argv)) = count.
Proof.
  revert n st; induction count as [|count IH]; simpl; intros n st.
  - intros [= <-]. rewrite app_nil_r. repeat split; auto.
  - destruct (nth_error argv n) as [a|] eqn:Ha; [|discriminate].
    intros H. apply IH in H. destruct H as (He & Ho & Hr & Hargs & Hl).
    rewrite (skipn_nth_error _ _ _ Ha). simpl in *.
    repeat split; auto.
    rewrite Hargs, <- app_assoc. reflexivity.
Qed.

Lemma copy_arguments_all (tokens : list str) (exe : str) (st : cmdParse) :
  copy_arguments (length tokens) 1 (exe :: tokens) st
  = Returns {| m_executable_name := m_executable_name st;
               m_arguments := m_arguments st ++ map (fun a => trim a " ") tokens;
               m_parameter_options := m_parameter_options st;
               m_errors := m_errors st |}.
Proof.
  assert (G : forall pre st,
    copy_arguments (length tokens) (length pre) (pre ++ tokens) st
    = Returns {| m_executable_name := m_executable_name st;
                 m_arguments := m_arguments st ++ map (fun a => trim a " ") tokens;
                 m_parameter_options := m_parameter_options st;
                 m_errors := m_errors st |}).
  { induction tokens as [|t tokens IH]; intros pre st0; simpl.
    - rewrite app_nil_r. destruct st0; reflexivity.
    - rewrite nth_error_app2, Nat.sub_diag by lia. simpl.
      specialize (IH (pre ++ [t]) (push_argument st0 (trim t " "))).
      rewrite length_app, Nat.add_1_r, <- app_assoc in IH. simpl in IH.
      rewrite IH, <- app_assoc. reflexivity. }
  apply (G [exe]).
Qed.

(** [init] with a positive count over exactly [argc] tokens. *)
Lemma init_tokens (exe : str) (tokens : list str) (st : cmdParse) :
  init (Z.of_nat (S (length tokens))) (exe :: tokens) st
  = parseOptions
      {| m_executable_name := exe;
         m_arguments := m_arguments st ++ map (fun a => trim a " ") tokens;
         m_parameter_options := m_parameter_options st;
         m_errors := m_errors st |}.
Proof.
  unfold init.
  destruct (Z.leb_spec (Z.of_nat (S (length tokens))) 0) as [H|_]; [lia|].
  rewrite Nat2Z.id. simpl nth_error. cbv iota.
  replace (S (length tokens) - 1) with (length tokens) by lia.
  rewrite copy_arguments_all. reflexivity.
Qed.

Lemma init_preserved (argc : Z) (argv : list str) (st : cmdParse) b st' :
  set_ok (m_parameter_options st) = true ->
  init argc argv st = Returns (b, st') ->
  Forall2 same_declaration (m_parameter_options st) (m_parameter_options st')
  /\ (exists es, m_errors st' = m_errors st ++ es)
  /\ ((argc <= 0)%Z \/
      length (m_arguments st')
      = length (m_arguments st) + (Z.to_nat argc - 1)).
Proof.
  intros Hok. unfold init.
  destruct (Z.leb_spec argc 0) as [H|H].
  - intros [= <- <-]. simpl.
    repeat split; auto using Forall2_same_refl. eexists; reflexivity.
  - destruct (nth_error argv 0) as [exe|]; [|discriminate].
    destruct (copy_arguments _ _ _ _) as [st1|f] eqn:Hc; [|discriminate].
    simpl. unfold parseOptions. intros Hp.
    apply copy_arguments_spec in Hc.
    destruct Hc as (_ & Ho & He & Ha & Hl). simpl in *.
    apply parse_loop_preserved in Hp; [|rewrite Ho; exact Hok].
    destruct Hp as (_ & Ha' & Ho' & es & Hes).
    rewrite Ho in Ho'. rewrite He in Hes.
    repeat split; eauto. right.
    rewrite Ha', Ha, length_app, length_map, Hl. reflexivity.
Qed.

(** ** Trimming *)

Lemma find_if_all {A} (p : A -> bool) (l : list A) :
  Forall (fun x => p x = true) l -> find_if p l = l.
Proof. destruct 1 as [|x l Hx _]; simpl; [|rewrite Hx]; reflexivity. Qed.

(** What [find_if] returns is empty or starts with an element that
    satisfies the predicate. *)
Lemma find_if_head {A} (p : A -> bool) (l : list A) :
  match find_if p l with
  | [] => True
  | x :: _ => p x = true
  end.
Proof.
  induction l as [|x l IH]; simpl; [exact I|].
  destruct (p x) eqn:Hx; [exact Hx | exact IH].
Qed.

Lemma upto_all_fail {A} (p : A -> bool) (l : list A) :
  Forall (fun x => p x = false) (upto p l).
Proof.
  induction l as [|x l IH]; simpl; [constructor|].
  destruct (p x) eqn:Hx; constructor; assumption.
Qed.

Lemma erase_after_last_all (p : ascii -> bool) (s : str) :
  Forall (fun x => p x = true) s -> erase_after_last p s = s.
Proof.
  intros H. unfold erase_after_last.
  rewrite find_if_all; [apply rev_involutive|].
  apply Forall_rev, H.
Qed.

Lemma find_if_fixed_app {A} (p : A -> bool) (l m : list A) :
  l <> [] -> find_if p l = l -> find_if p (l ++ m) = l ++ m.
Proof.
  destruct l as [|x l]; [contradiction|]. intros _. simpl.
  destruct (p x); [reflexivity|]. intros H.
  pose proof (find_if_length p l) as Hl. rewrite H in Hl. simpl in Hl. lia.
Qed.

Lemma erase_after_last_app (p : ascii -> bool) (x y : str) :
  y <> [] -> erase_after_last p y = y ->
  erase_after_last p (x ++ y) = x ++ y.
Proof.
  unfold erase_after_last. intros Hy He.
  assert (Hr : find_if p (rev y) = rev y).
  { rewrite <- He at 2. rewrite rev_involutive. reflexivity. }
  rewrite rev_app_distr, find_if_fixed_app, rev_app_distr, !rev_involutive;
    auto.
  intros E. apply (f_equal (@rev ascii)) in E. rewrite rev_involutive in E.
  contradiction.
Qed.

Lemma plain_name_spec (L : str) :
  plain_name L = true ->
  Forall (fun c => negb (isspace c) = true) L
  /\ Forall (fun c => is_delimiter c = false) L
  /\ isOptionPrefix L = false.
Proof.
  unfold plain_name. rewrite andb_true_iff, forallb_forall, negb_true_iff.
  intros [H Hp]. repeat split; auto; apply Forall_forall; intros c Hc;
    specialize (H c Hc); rewrite andb_true_iff, !negb_true_iff in H;
    [rewrite negb_true_iff|]; tauto.
Qed.

Lemma trim_plain_name (L : str) : plain_name L = true -> trim L " " = L.
Proof.
  intros H. apply plain_name_spec in H. destruct H as (Hs & _).
  unfold trim, ltrim; simpl.
  rewrite find_if_all by exact Hs.
  apply erase_after_last_all, Hs.
Qed.


Lemma find_if_full_length {A} (p : A -> bool) (l : list A) :
  length (find_if p l) = length l -> find_if p l = l.
Proof.
  destruct l as [|x l]; simpl; [reflexivity|].
  destruct (p x); [reflexivity|]. intros H.
  pose proof (find_if_length p l). lia.
Qed.

Lemma erase_after_last_length (p : ascii -> bool) (s : str) :
  length (erase_after_last p s) <= length s.
Proof.
  unfold erase_after_last. rewrite length_rev, <- (length_rev s).
  apply find_if_length.
Qed.

(** A token that ends with an already trimmed continuation is left as it
    is by the white-space trim of [init]. *)
Lemma trim_token_tail (pre tail : str) (c : ascii) :
  isspace c = false -> tail <> [] -> trim tail " " = tail ->
  trim (c :: pre ++ tail) " " = c :: pre ++ tail.
Proof.
  intros Hc Hne Ht. unfold trim, ltrim in *; simpl in *. rewrite Hc; simpl.
  assert (Hl : find_if (fun ch => negb (isspace ch)) tail = tail).
  { apply find_if_full_length.
    pose proof (find_if_length (fun ch => negb (isspace ch)) tail).
    pose proof (erase_after_last_length (fun ch => negb (isspace ch))
                  (find_if (fun ch => negb (isspace ch)) tail)) as Hlen.
    rewrite Ht in Hlen. lia. }
  rewrite Hl in Ht.
  apply (erase_after_last_app _ (c :: pre) tail Hne Ht).
Qed.

(** ** One long-form segment that holds a delimiter *)

Lemma ltrim_dashes (s : str) :
  isOptionPrefix s = false -> ltrim_c (lit "--" ++ s) "-" = s.
Proof.
  unfold isOptionPrefix, index, ltrim_c. simpl.
  destruct s as [|c s]; simpl; [reflexivity|]. intros ->. reflexivity.
Qed.

Lemma split_at_delimiter (L v : str) (d : ascii) :
  Forall (fun c => is_delimiter c = false) L -> is_delimiter d = true ->
  split_name_value (L ++ d :: v) = Returns (L, v).
Proof.
  intros HL Hd. unfold split_name_value.
  rewrite range_find_if, (upto_app _ _ _ _ HL Hd), (find_if_app _ _ _ _ HL Hd).
  reflexivity.
Qed.

Lemma isOptionPrefix_name_delim (L v : str) (d : ascii) :
  isOptionPrefix L = false -> is_delimiter d = true ->
  isOptionPrefix (L ++ d :: v) = false.
Proof.
  destruct L as [|c L]; simpl; [|auto]. intros _.
  unfold is_delimiter, isOptionPrefix, index; simpl.
  destruct (Ascii.eqb_spec d "-"); [subst; discriminate | reflexivity].
Qed.

Lemma update_option_long (st : cmdParse) (L v : str) (d : ascii) b o a :
  set_ok (m_parameter_options st) = true ->
  plain_name L = true -> is_delimiter d = true ->
  set_find (make_cmdOption L [] []) (m_parameter_options st) = Some (b, o, a) ->
  update_option (lit "--" ++ L ++ d :: v) st
  = Returns (Continue (set_parameter_options st
      (b ++ set_paramValue o (trim (trim v " ") dquote) :: a))).
Proof.
  intros Hok HL Hd Hf. unfold update_option.
  change (Ascii.eqb (index (lit "--" ++ L ++ d :: v) 0) "-"
          && Ascii.eqb (index (lit "--" ++ L ++ d :: v) 1) "-") with true.
  cbv iota.
  pose proof (plain_name_spec L HL) as (_ & Hnd & Hnp).
  rewrite ltrim_dashes by (apply isOptionPrefix_name_delim; assumption).
  rewrite (split_at_delimiter L v d Hnd Hd). simpl bind. cbv beta. simpl fst.
  simpl snd. rewrite (trim_plain_name L HL), Hf.
  destruct (update_found st _ b o a (trim (trim v " ") dquote) Hok Hf) as (Hi & _).
  change (snd (fst (b, o, a))) with o. rewrite Hi. reflexivity.
Qed.

(** A cursor that stands on an option-prefix token followed by
    continuation tokens only: one turn, then the loop ends. *)
Lemma parse_loop_one_segment (tok : str) (rest : list str) (st : cmdParse) :
  isOptionPrefix tok = true ->
  Forall (fun t => isOptionPrefix t = false) rest ->
  parse_loop (tok :: rest) st
  = match update_option (concat (tok :: rest)) st with
    | Undefined f => Undefined f
    | Returns (Return b st') => Returns (b, st')
    | Returns (Continue st') => Returns (true, st')
    end.
Proof.
  intros Ht Hr. rewrite parse_loop_step. simpl find_if. rewrite Ht.
  rewrite (upto_none _ _ Hr), (find_if_none _ _ Hr).
  destruct (update_option _ st) as [[st'|b st']|f]; reflexivity.
Qed.

(** ** Declaring options *)

Lemma set_insert_In (o : cmdOption) (s : list cmdOption) (y : cmdOption) :
  In y (fst (set_insert o s)) -> y = o \/ In y s.
Proof.
  induction s as [|x r IH]; simpl.
  - intros [<-|[]]. left; reflexivity.
  - destruct (option_lt o x).
    + simpl. intros [<-|H]; auto.
    + destruct (option_lt x o).
      * destruct (set_insert o r) as [r' i]. simpl in *.
        intros [<-|H]; auto. destruct (IH H); auto.
      * simpl. auto.
Qed.

(** Insertion keeps the set in the order of [operator<]. *)
Lemma set_insert_ok (o : cmdOption) (s : list cmdOption) :
  set_ok s = true -> set_ok (fst (set_insert o s)) = true.
Proof.
  induction s as [|x r IH]; simpl; [reflexivity|].
  rewrite andb_true_iff. intros [Hx Hr].
  destruct (option_lt o x) eqn:Hox.
  - simpl. rewrite Hox, Hx, Hr. simpl. rewrite andb_true_r.
    apply forallb_forall. intros y Hy.
    rewrite forallb_forall in Hx. eauto using option_lt_trans.
  - destruct (option_lt x o) eqn:Hxo.
    + pose proof (set_insert_In o r) as Hin.
      destruct (set_insert o r) as [r' i]. simpl in *.
      rewrite (IH Hr), andb_true_r.
      apply forallb_forall. intros y Hy.
      destruct (Hin y Hy) as [->|Hy']; [exact Hxo|].
      rewrite forallb_forall in Hx. auto.
    + simpl. rewrite Hx, Hr. reflexivity.
Qed.

Lemma add_param_option_ok (st : cmdParse) (o : cmdOption) :
  set_ok (m_parameter_options st) = true ->
  set_ok (m_parameter_options (snd (add_param_option st o))) = true.
Proof.
  intros H. unfold add_param_option.
  pose proof (set_insert_ok o _ H) as Hi.
  destruct (set_insert o (m_parameter_options st)) as [s [|]]; exact Hi.
Qed.

(** Every parser built from a vector of options holds a well-ordered set. *)
Lemma cmdParse_of_ok (optionVec : list cmdOption) :
  set_ok (m_parameter_options (cmdParse_of optionVec)) = true.
Proof.
  unfold cmdParse_of.
  assert (G : forall st, set_ok (m_parameter_options st) = true ->
    set_ok (m_parameter_options
      (fold_left (fun st o => snd (add_param_option st o)) optionVec st)) = true).
  { induction optionVec as [|o l IH]; simpl; intros st H; [exact H|].
    apply IH, add_param_option_ok, H. }
  apply G. reflexivity.
Qed.

(** An option with the key of one already in the set is not inserted. *)
Lemma set_insert_duplicate (o x : cmdOption) (s : list cmdOption) :
  set_ok s = true -> In x s ->
  make_lower (longName x) = make_lower (longName o) ->
  set_insert o s = (s, false).
Proof.
  intros Hok Hin Hkey.
  assert (Hl : forall y, option_lt y o = option_lt y x)
    by (intros y; unfold option_lt; rewrite Hkey; reflexivity).
  assert (Hr : forall y, option_lt o y = option_lt x y)
    by (intros y; unfold option_lt; rewrite Hkey; reflexivity).
  induction s as [|y r IH]; simpl in *; [contradiction|].
  apply andb_true_iff in Hok. destruct Hok as [Hy Hok].
  destruct Hin as [->|Hin].
  - rewrite Hr, Hl. unfold option_lt. rewrite str_ltb_irrefl. reflexivity.
  - rewrite forallb_forall in Hy. specialize (Hy x Hin).
    rewrite Hr, Hl, Hy, (option_lt_asym _ _ Hy), (IH Hok Hin). reflexivity.
Qed.

(** C6: in a well-ordered registry, adding an option whose long name
    equals, case folded, the long name of a registered option returns
    false, leaves the registry (its size and its entries) as it was and
    appends the one error "Option already exists: <name>". *)
Theorem add_duplicate_rejected (st : cmdParse) (paramOption x : cmdOption) :
  set_ok (m_parameter_options st) = true ->
  In x (m_parameter_options st) ->
  make_lower (longName x) = make_lower (longName paramOption) ->
  exists st',
    add_param_option st paramOption = (false, st')
    /\ m_parameter_options st' = m_parameter_options st
    /\ get_param_option_count st' = get_param_option_count st
    /\ m_errors st'
       = m_errors st ++ [lit "Option already exists: " ++ longName paramOption].
Proof.
  intros Hok Hin Hkey. unfold add_param_option.
  rewrite (set_insert_duplicate paramOption x _ Hok Hin Hkey).
  eexists. split; [reflexivity|]. repeat split.
Qed.

Lemma add_duplicate_rejected_witness :
  set_ok (m_parameter_options sample) = true
  /\ In BufferSize (m_parameter_options sample)
  /\ exists st',
       add_param_option sample (make_cmdOption (lit "BUFFERSIZE") (lit "5") [])
       = (false, st')
       /\ m_parameter_options st' = m_parameter_options sample
       /\ get_param_option_count st' = get_param_option_count sample
       /\ m_errors st' = m_errors sample ++ [lit "Option already exists: BUFFERSIZE"].
Proof.
  split; [reflexivity|]. split; [left; reflexivity|].
  apply (add_duplicate_rejected sample
           (make_cmdOption (lit "BUFFERSIZE") (lit "5") []) BufferSize).
  - reflexivity.
  - left; reflexivity.
  - reflexivity.
Defined.

(** ** init *)

(** C8: for every argument count [<= 0], whatever the token array holds,
    [init] returns false and appends the one error
    "No arguments given to application"; the executable name, the raw
    arguments and the options are left as they were. *)
Theorem init_no_arguments (argc : Z) (argv : list str) (st : cmdParse) :
  (argc <= 0)%Z ->
  exists st',
    init argc argv st = Returns (false, st')
    /\ m_errors st' = m_errors st ++ [lit "No arguments given to application"]
    /\ m_executable_name st' = m_executable_name st
    /\ m_arguments st' = m_arguments st
    /\ m_parameter_options st' = m_parameter_options st.
Proof.
  intros H. unfold init.
  destruct (Z.leb_spec argc 0) as [_|H']; [|lia].
  eexists. split; [reflexivity|]. repeat split.
Qed.

Lemma init_no_arguments_witness :
  (0 <= 0)%Z
  /\ exists st',
       init 0 [[]; []] new_cmdParse = Returns (false, st')
       /\ m_errors st' = [lit "No arguments given to application"]
       /\ m_executable_name st' = []
       /\ m_arguments st' = []
       /\ m_parameter_options st' = [].
Proof.
  split; [lia|].
  apply (init_no_arguments 0 [[]; []] new_cmdParse). lia.
Defined.

(** ** has_value *)

(** C10: [has_value] is true exactly when [paramValue] is blank (empty
    or white space only): true for an option as declared, which no parse
    has matched, false for an option that holds a parsed value that is
    not blank. *)
Theorem has_value_iff_blank :
  (forall o : cmdOption,
      has_value o = true
      <-> Forall (fun c => isspace c = true) (paramValue o))
  /\ (forall name d short, has_value (make_cmdOption name d short) = true)
  /\ (forall (o : cmdOption) (v : str),
         is_blank v = false -> has_value (set_paramValue o v) = false)
  /\ (exists st',
         init 2 [lit "Sample.exe"; lit "--BufferSize:23"] sample
         = Returns (true, st')
         /\ has_value (get_param_option st' (lit "OutputFile")) = true
         /\ has_value (get_param_option st' (lit "BufferSize")) = false).
Proof.
  split; [|split; [|split]].
  - intros o. unfold has_value, is_blank.
    rewrite forallb_forall, Forall_forall. reflexivity.
  - reflexivity.
  - intros o v H. exact H.
  - eexists. split; [vm_compute; reflexivity|]. split; reflexivity.
Qed.

Lemma has_value_iff_blank_witness :
  is_blank (lit "23") = false
  /\ has_value (set_paramValue BufferSize (lit "23")) = false.
Proof.
  split; [reflexivity|].
  apply (proj1 (proj2 (proj2 has_value_iff_blank)) BufferSize (lit "23")).
  reflexivity.
Defined.

(** ** Segments without a delimiter *)

(** C3: on a segment whose text, once the leading dashes are stripped,
    holds none of the delimiters, [value_iterator] is [end()] and the loop
    that copies the value starts from [value_iterator + 1]: the split does
    not return the name and an empty value, it advances an iterator past
    the end of the string, and so does the whole turn of the loop. *)
Theorem split_without_delimiter_undefined (fullOptionString : str) :
  Forall (fun c => is_delimiter c = false) (ltrim_c fullOptionString "-") ->
  split_name_value (ltrim_c fullOptionString "-") = Undefined iterator_past_end
  /\ forall st, update_option fullOptionString st = Undefined iterator_past_end.
Proof.
  intros H.
  assert (E : split_name_value (ltrim_c fullOptionString "-")
              = Undefined iterator_past_end).
  { unfold split_name_value. rewrite (find_if_none _ _ H). reflexivity. }
  split; [exact E|].
  intros st. unfold update_option. rewrite E. reflexivity.
Qed.

Lemma split_without_delimiter_undefined_witness :
  Forall (fun c => is_delimiter c = false) (ltrim_c (lit "--secondOp") "-")
  /\ split_name_value (ltrim_c (lit "--secondOp") "-")
     = Undefined iterator_past_end
  /\ forall st, update_option (lit "--secondOp") st
                = Undefined iterator_past_end.
Proof.
  assert (H : Forall (fun c => is_delimiter c = false)
                (ltrim_c (lit "--secondOp") "-")) by (repeat constructor).
  split; [exact H|].
  apply (split_without_delimiter_undefined (lit "--secondOp") H).
Defined.

(** The same through [init]: a declared option given as a bare flag. *)
Example init_bare_flag :
  init 2 [lit "Sample.exe"; lit "--OutputFile"] sample
  = Undefined iterator_past_end.
Proof. vm_compute. reflexivity. Qed.

(** ** Arguments without an option prefix *)

(** C4: when the tokens after the executable name are not empty and none
    of them starts with a dash, the first [find_if] of [parseOptions]
    returns [end()] and [start + 1] is evaluated before the test
    [start == end()]: [init] does not return success. *)
Theorem init_without_option_prefix_undefined
    (exe : str) (tokens : list str) (st : cmdParse) :
  m_arguments st = [] -> tokens <> [] ->
  Forall (fun t => isOptionPrefix (trim t " ") = false) tokens ->
  init (Z.of_nat (S (length tokens))) (exe :: tokens) st
  = Undefined iterator_past_end.
Proof.
  intros Ha Hne Hp. rewrite init_tokens. unfold parseOptions. simpl.
  rewrite Ha, parse_loop_step. simpl app.
  rewrite find_if_none.
  - destruct tokens; [contradiction | reflexivity].
  - apply Forall_map. exact Hp.
Qed.

Lemma init_without_option_prefix_undefined_witness :
  m_arguments new_cmdParse = [] /\ [lit "opt1"] <> []
  /\ Forall (fun t => isOptionPrefix (trim t " ") = false) [lit "opt1"]
  /\ init 2 [lit "sample.exe"; lit "opt1"] new_cmdParse
     = Undefined iterator_past_end.
Proof.
  assert (H : Forall (fun t => isOptionPrefix (trim t " ") = false)
                [lit "opt1"]) by (repeat constructor).
  split; [reflexivity|]. split; [discriminate|]. split; [exact H|].
  apply (init_without_option_prefix_undefined
           (lit "sample.exe") [lit "opt1"] new_cmdParse);
    [reflexivity | discriminate | exact H].
Defined.

(** With no token after the executable name the loop is not entered. *)
Lemma init_no_tokens (exe : str) (st : cmdParse) :
  m_arguments st = [] ->
  init 1 [exe] st = Returns (true, set_executable_name st exe).
Proof.
  intros Ha.
  pose proof (init_tokens exe [] st) as H. simpl length in H.
  change (Z.of_nat 1) with 1%Z in H. rewrite H. unfold parseOptions. simpl.
  rewrite Ha. simp parse_loop. unfold set_executable_name. rewrite Ha.
  reflexivity.
Qed.

(** Whenever [init] returns with a positive count, the raw-argument list
    has grown by [argc - 1]. *)
Lemma init_arguments_length (argc : Z) (argv : list str) (st : cmdParse) b st' :
  set_ok (m_parameter_options st) = true -> (0 < argc)%Z ->
  init argc argv st = Returns (b, st') ->
  length (m_arguments st') = length (m_arguments st) + (Z.to_nat argc - 1).
Proof.
  intros Hok Hpos H.
  destruct (init_preserved _ _ _ _ _ Hok H) as (_ & _ & [Hle|Hlen]);
    [lia | exact Hlen].
Qed.

(** ** The help string *)

Lemma fold_left_append {A} (f : A -> str) (l : list A) (h : str) :
  fold_left (fun helpString o => helpString ++ f o) l h
  = h ++ concat (map f l).
Proof.
  revert h; induction l as [|o l IH]; intros h; simpl.
  - symmetry; apply app_nil_r.
  - rewrite IH, <- app_assoc. reflexivity.
Qed.

(** C9: the help string is the executable name, the header, one line
    "    -<short>, --<long>" per option in the order of the set and the
    footer; the second line of the header is " where options are:", with
    a space in front, so the string is not the one that starts with
    "<exe> [options]" and "where options are:". *)
Theorem get_helpstring_text (st : cmdParse) :
  get_helpstring st
  = m_executable_name st
    ++ (lit " [options]" ++ [newline] ++ lit " where options are:" ++ [newline])
    ++ concat (map help_line (m_parameter_options st))
    ++ [newline; newline] ++ lit "(version 1.0)"
  /\ get_helpstring st
     <> m_executable_name st
        ++ (lit " [options]" ++ [newline] ++ lit "where options are:" ++ [newline])
        ++ concat (map help_line (m_parameter_options st))
        ++ [newline; newline] ++ lit "(version 1.0)".
Proof.
  assert (E : get_helpstring st
    = m_executable_name st
      ++ (lit " [options]" ++ [newline] ++ lit " where options are:" ++ [newline])
      ++ concat (map help_line (m_parameter_options st))
      ++ [newline; newline] ++ lit "(version 1.0)").
  { unfold get_helpstring. rewrite fold_left_append.
    rewrite <- !app_assoc. reflexivity. }
  split; [exact E|].
  rewrite E. intros H. apply app_inv_head in H. discriminate H.
Qed.

(** The lines follow the order of [operator<], whatever the order of the
    declarations. *)
Example helpstring_sample_order :
  get_helpstring (cmdParse_of [OutputFile; BufferSize])
  = get_helpstring (cmdParse_of [BufferSize; OutputFile])
  /\ get_helpstring (set_executable_name sample (lit "Sample.exe"))
     = lit "Sample.exe [options]" ++ [newline]
       ++ lit " where options are:" ++ [newline]
       ++ lit "    -b, --BufferSize" ++ [newline]
       ++ lit "    -o, --OutputFile" ++ [newline]
       ++ [newline; newline] ++ lit "(version 1.0)".
Proof. split; vm_compute; reflexivity. Qed.

(** ** A parse made of one segment *)

Lemma lookup_updated (st : cmdParse) (k : cmdOption) b o a (o' : cmdOption) :
  set_find k (m_parameter_options st) = Some (b, o, a) ->
  longName o' = longName o ->
  set_find k (b ++ o' :: a) = Some (b, o', a).
Proof.
  intros Hf Hn. apply set_find_spec in Hf. destruct Hf as (_ & Hb & Hok & Hko).
  apply set_find_intro; [exact Hb| |].
  - rewrite (option_lt_longName_l o' o k Hn). exact Hok.
  - rewrite (option_lt_longName_r k o' o Hn). exact Hko.
Qed.

(** [init] on tokens that [init] stores as they are and that make one
    long-form segment [--L<d>v]. *)
Lemma init_one_long_option
    (st : cmdParse) (exe L v : str) (d : ascii) (tok : str) (rest : list str)
    b o a :
  set_ok (m_parameter_options st) = true ->
  m_arguments st = [] ->
  plain_name L = true -> is_delimiter d = true ->
  set_find (make_cmdOption L [] []) (m_parameter_options st) = Some (b, o, a) ->
  map (fun t => trim t " ") (tok :: rest) = tok :: rest ->
  isOptionPrefix tok = true ->
  Forall (fun t => isOptionPrefix t = false) rest ->
  concat (tok :: rest) = lit "--" ++ L ++ d :: v ->
  init (Z.of_nat (S (length (tok :: rest)))) (exe :: tok :: rest) st
  = Returns (true,
      {| m_executable_name := exe;
         m_arguments := tok :: rest;
         m_parameter_options :=
           b ++ set_paramValue o (trim (trim v " ") dquote) :: a;
         m_errors := m_errors st |}).
Proof.
  intros Hok Ha HL Hd Hf Htrim Htok Hrest Hcat.
  rewrite init_tokens, Htrim, Ha. unfold parseOptions. simpl app.
  cbn [m_arguments].
  rewrite (parse_loop_one_segment _ _ _ Htok Hrest), Hcat.
  rewrite (update_option_long _ L v d b o a); auto.
Qed.

(** ** Option and value in two tokens *)




(** With a value that holds no delimiter the joined segment has none. *)
Example space_delimited_pair_number :
  init 3 [lit "Sample.exe"; lit "--BufferSize"; lit "23"] sample
  = Undefined iterator_past_end.
Proof. vm_compute. reflexivity. Qed.

(** The space-delimited form is read when it comes as one token. *)
Example space_delimited_one_token :
  exists st',
    init 3 [lit "Sample.exe"; lit "--option1:16"; lit "--option2 6"]
      (cmdParse_of [make_cmdOption (lit "option1") (lit "1") [];
                    make_cmdOption (lit "option2") (lit "2") []])
    = Returns (true, st')
    /\ paramValue (get_param_option st' (lit "option2")) = lit "6"
    /\ get_value_int (get_param_option st' (lit "option1")) = Value 16.
Proof.
  eexists. split; [vm_compute; reflexivity|]. split; reflexivity.
Qed.

(** ** Quoted values *)

Lemma all_equal_repeat (c : ascii) (l : str) :
  Forall (fun ch => negb (Ascii.eqb ch c) = false) l ->
  l = repeat c (length l).
Proof.
  induction 1 as [|x l Hx _ IH]; simpl; [reflexivity|].
  apply negb_false_iff, Ascii.eqb_eq in Hx. subst x. f_equal. exact IH.
Qed.

(** [trim(s, c)] for a character other than the space removes every
    leading and every trailing [c]. *)
Lemma trim_char_spec (s : str) (c : ascii) :
  Ascii.eqb c " " = false ->
  exists n m,
    s = repeat c n ++ trim s c ++ repeat c m
    /\ hd_error (trim s c) <> Some c
    /\ hd_error (rev (trim s c)) <> Some c.
Proof.
  intros Hc. unfold trim. rewrite Hc. unfold ltrim_c, erase_after_last.
  set (p := fun ch => negb (Ascii.eqb ch c)).
  set (s1 := find_if p s).
  assert (Hp : forall x, p x = true -> x <> c).
  { intros x Hx ->. unfold p in Hx. rewrite Ascii.eqb_refl in Hx.
    discriminate. }
  pose proof (upto_find_if p s) as Hs. fold s1 in Hs.
  pose proof (upto_find_if p (rev s1)) as Hr.
  apply (f_equal (@rev ascii)) in Hr.
  rewrite rev_app_distr, rev_involutive in Hr.
  exists (length (upto p s)), (length (rev (upto p (rev s1)))).
  split; [|split].
  - rewrite <- (all_equal_repeat c (upto p s)) by apply upto_all_fail.
    rewrite <- (all_equal_repeat c (rev (upto p (rev s1))))
      by apply Forall_rev, upto_all_fail.
    rewrite Hr. symmetry. exact Hs.
  - pose proof (find_if_head p s) as Hh. fold s1 in Hh.
    destruct (rev (find_if p (rev s1))) as [|x r]; [discriminate|].
    rewrite <- Hr in Hh. simpl in *. intros [= ->]. apply (Hp c Hh eq_refl).
  - rewrite rev_involutive.
    pose proof (find_if_head p (rev s1)) as Hh.
    destruct (find_if p (rev s1)) as [|x r]; [discriminate|].
    simpl. intros [= ->]. apply (Hp c Hh eq_refl).
Qed.

(** C7, as the code has it: the value of a segment is trimmed of white
    space and then of every leading and every trailing double quote, not of
    one layer; for [--OutputFile="C://Temp//"] the text value is
    [C://Temp//]. *)
Theorem value_quotes_all_stripped :
  (forall (st : cmdParse) (exe L v : str) (d : ascii),
      set_ok (m_parameter_options st) = true ->
      m_arguments st = [] ->
      plain_name L = true -> is_delimiter d = true ->
      trim (lit "--" ++ L ++ d :: v) " " = lit "--" ++ L ++ d :: v ->
      has_param_option st L = true ->
      exists st' n m,
        init 2 [exe; lit "--" ++ L ++ d :: v] st = Returns (true, st')
        /\ trim v " "
           = repeat dquote n ++ paramValue (get_param_option st' L)
             ++ repeat dquote m
        /\ hd_error (paramValue (get_param_option st' L)) <> Some dquote
        /\ hd_error (rev (paramValue (get_param_option st' L))) <> Some dquote)
  /\ (exists st',
         init 2 [lit "Sample.exe";
                 lit "--OutputFile=" ++ [dquote] ++ lit "C://Temp//" ++ [dquote]]
           sample
         = Returns (true, st')
         /\ get_value_string (get_param_option st' (lit "OutputFile"))
            = lit "C://Temp//").
Proof.
  split.
  - intros st exe L v d Hok Ha HL Hd Htrim Hhas.
    unfold has_param_option in Hhas.
    destruct (set_find _ _) as [[[b o] a]|] eqn:Hf; [clear Hhas|discriminate].
    pose proof (init_one_long_option st exe L v d (lit "--" ++ L ++ d :: v) []
                  b o a Hok Ha HL Hd Hf) as H1.
    simpl length in H1. change (Z.of_nat 2) with 2%Z in H1.
    destruct (trim_char_spec (trim v " ") dquote eq_refl)
      as (n & m & Hv & Hh & Hl).
    eexists. exists n, m. split.
    + apply H1.
      * cbn [map]. rewrite Htrim. reflexivity.
      * reflexivity.
      * constructor.
      * cbn [concat]. rewrite app_nil_r. reflexivity.
    + unfold get_param_option. cbn [m_parameter_options].
      rewrite (lookup_updated st _ b o a _ Hf) by reflexivity.
      cbn [set_paramValue paramValue]. auto.
  - eexists. split; [vm_compute; reflexivity|]. reflexivity.
Qed.

Lemma value_quotes_all_stripped_witness :
  exists st' n m,
    init 2 [lit "Sample.exe";
            lit "--" ++ lit "OutputFile"
              ++ "="%char :: [dquote] ++ lit "C://Temp//" ++ [dquote]]
      sample
    = Returns (true, st')
    /\ trim ([dquote] ++ lit "C://Temp//" ++ [dquote]) " "
       = repeat dquote n
         ++ paramValue (get_param_option st' (lit "OutputFile"))
         ++ repeat dquote m
    /\ hd_error (paramValue (get_param_option st' (lit "OutputFile")))
       <> Some dquote
    /\ hd_error (rev (paramValue (get_param_option st' (lit "OutputFile"))))
       <> Some dquote.
Proof.
  apply (proj1 value_quotes_all_stripped sample (lit "Sample.exe")
           (lit "OutputFile") ([dquote] ++ lit "C://Temp//" ++ [dquote])
           "="%char); reflexivity.
Defined.

(** C7 as stated fails: of two layers of quotes around the value both are
    removed, the inner one is not kept. *)
Lemma inner_quotes_not_kept :
  exists st',
    init 2 [lit "Sample.exe";
            lit "--OutputFile=" ++ [dquote; dquote] ++ lit "C://Temp//"
              ++ [dquote; dquote]]
      sample
    = Returns (true, st')
    /\ paramValue (get_param_option st' (lit "OutputFile")) = lit "C://Temp//"
    /\ paramValue (get_param_option st' (lit "OutputFile"))
       <> [dquote] ++ lit "C://Temp//" ++ [dquote].
Proof.
  eexists. split; [vm_compute; reflexivity|].
  split; [reflexivity | discriminate].
Qed.

(** ** Defaults *)

Lemma set_find_inserted (k o : cmdOption) (s s' : list cmdOption) :
  longName k = longName o -> set_insert o s = (s', true) ->
  exists b a, set_find k s' = Some (b, o, a).
Proof.
  intros Hn.
  assert (Hko : option_lt k o = false)
    by (unfold option_lt; rewrite Hn; apply str_ltb_irrefl).
  assert (Hok : option_lt o k = false)
    by (unfold option_lt; rewrite Hn; apply str_ltb_irrefl).
  revert s'; induction s as [|x r IH]; simpl; intros s'.
  - intros [= <-]. simpl. rewrite Hok, Hko. eauto.
  - destruct (option_lt o x) eqn:Hox.
    + intros [= <-]. simpl. rewrite Hok, Hko. eauto.
    + destruct (option_lt x o) eqn:Hxo; [|discriminate].
      destruct (set_insert o r) as [r' i]. intros [= <- ->].
      destruct (IH r' eq_refl) as (b & a & Hf). simpl.
      rewrite (option_lt_longName_r x k o Hn), Hxo, Hf. eauto.
Qed.

(** C2 as stated fails: declared with the default "1000" and not matched
    by the parse, [BufferSize] reads back as the empty text, and its
    integer accessor throws. *)
Lemma unmatched_value_is_not_default :
  exists st',
    init 1 [lit "Sample.exe"] sample = Returns (true, st')
    /\ defaultValue (get_param_option st' (lit "BufferSize")) = lit "1000"
    /\ get_value_string (get_param_option st' (lit "BufferSize")) = []
    /\ get_value_string (get_param_option st' (lit "BufferSize")) <> lit "1000"
    /\ get_value_int (get_param_option st' (lit "BufferSize")) = invalid_argument.
Proof.
  eexists. split; [vm_compute; reflexivity|].
  repeat split. discriminate.
Qed.

(** ** Options that are not declared *)

Lemma ltrim_dash (s : str) :
  isOptionPrefix s = false -> ltrim_c (lit "-" ++ s) "-" = s.
Proof.
  unfold isOptionPrefix, index, ltrim_c. simpl.
  destruct s as [|c s]; simpl; [reflexivity|]. intros ->. reflexivity.
Qed.

(** A short-form segment whose name resolves to no option: the name is
    overwritten by the empty result of [getFullOptionName] before the
    error is built. *)
Lemma update_option_short_unresolved (st : cmdParse) (s v : str) (d : ascii) :
  plain_name s = true -> is_delimiter d = true ->
  getFullOptionName (m_parameter_options st) s = [] ->
  update_option (lit "-" ++ s ++ d :: v) st
  = Returns (Return false (logError st (lit "Option not found: "))).
Proof.
  intros Hs Hd Hg. unfold update_option.
  pose proof (plain_name_spec s Hs) as (_ & Hnd & Hnp).
  pose proof (isOptionPrefix_name_delim s v d Hnp Hd) as Hp.
  replace (Ascii.eqb (index (lit "-" ++ s ++ d :: v) 0) "-"
           && Ascii.eqb (index (lit "-" ++ s ++ d :: v) 1) "-") with false.
  rewrite (ltrim_dash _ Hp), (split_at_delimiter s v d Hnd Hd).
  simpl bind. cbv beta. simpl fst. rewrite (trim_plain_name s Hs), Hg.
  reflexivity.
Qed.


(** C5: for a short-form segment whose name resolves to no declared
    option [init] returns false, but the error it records is
    "Option not found: " with an empty name: it does not name the option
    that was given. *)
Theorem unresolved_short_name_not_reported
    (st : cmdParse) (exe s v : str) (d : ascii) :
  m_arguments st = [] ->
  plain_name s = true -> s <> [] -> is_delimiter d = true ->
  trim (lit "-" ++ s ++ d :: v) " " = lit "-" ++ s ++ d :: v ->
  getFullOptionName (m_parameter_options st) s = [] ->
  exists st',
    init 2 [exe; lit "-" ++ s ++ d :: v] st = Returns (false, st')
    /\ get_errors st' = get_errors st ++ [lit "Option not found: "]
    /\ get_errors st' <> get_errors st ++ [lit "Option not found: " ++ s]
    /\ m_parameter_options st' = m_parameter_options st.
Proof.
  intros Ha Hs Hne Hd Htrim Hg.
  pose proof (init_tokens exe [lit "-" ++ s ++ d :: v] st) as H.
  simpl length in H. change (Z.of_nat 2) with 2%Z in H.
  rewrite H. clear H. cbn [map]. rewrite Htrim, Ha. unfold parseOptions.
  cbn [app m_arguments].
  rewrite parse_loop_one_segment; [|reflexivity|constructor].
  cbn [concat]. rewrite app_nil_r.
  rewrite update_option_short_unresolved by assumption.
  eexists. split; [reflexivity|]. unfold get_errors. cbn [logError m_errors].
  repeat split.
  intros E. apply app_inv_head in E. injection E as E.
  symmetry in E. contradiction.
Qed.

Lemma unresolved_short_name_not_reported_witness :
  exists st',
    init 2 [lit "Sample.exe"; lit "-" ++ lit "z" ++ ":"%char :: lit "5"]
      sample_short
    = Returns (false, st')
    /\ get_errors st' = get_errors sample_short ++ [lit "Option not found: "]
    /\ get_errors st'
       <> get_errors sample_short ++ [lit "Option not found: " ++ lit "z"]
    /\ m_parameter_options st' = m_parameter_options sample_short.
Proof.
  apply (unresolved_short_name_not_reported sample_short (lit "Sample.exe")
           (lit "z") (lit "5") ":"%char);
    try reflexivity; discriminate.
Defined.

(** The rest of the failure policy on the two forms: the parse stops at
    the first segment that is not declared, the segments before it keep
    their effect, and a long-form name is reported. *)
Example unknown_option_after_update :
  (exists st',
      init 3 [lit "Sample.exe"; lit "-a:16"; lit "-z:5"] sample_short
      = Returns (false, st')
      /\ get_errors st' = [lit "Option not found: "]
      /\ paramValue (get_param_option st' (lit "optionA")) = lit "16")
  /\ (exists st',
         init 4 [lit "Sample.exe"; lit "-a:16"; lit "--zeta:5"; lit "-b:7"]
           sample_short
         = Returns (false, st')
         /\ get_errors st' = [lit "Option not found: zeta"]
         /\ paramValue (get_param_option st' (lit "optionA")) = lit "16"
         /\ paramValue (get_param_option st' (lit "optionB")) = []).
Proof.
  split; eexists; (split; [vm_compute; reflexivity|]); repeat split.
Qed.

(** * Further properties of the code *)

(** ** The order on names is total *)

Lemma code_inj (x y : ascii) : code x = code y -> x = y.
Proof.
  unfold code. intros H.
  rewrite <- (ascii_N_embedding x), <- (ascii_N_embedding y), H. reflexivity.
Qed.

Lemma str_ltb_total (a b : str) :
  str_ltb a b = false -> str_ltb b a = false -> a = b.
Proof.
  revert b; induction a as [|x a IH]; intros [|y b]; simpl;
    try discriminate; auto.
  destruct (N.ltb_spec (code x) (code y)); [discriminate|].
  destruct (N.ltb_spec (code y) (code x)); [discriminate|].
  intros Hab Hba. rewrite (code_inj x y) by lia. f_equal. auto.
Qed.

Lemma option_lt_total (a b : cmdOption) :
  option_lt a b = false -> option_lt b a = false -> key a = key b.
Proof. apply str_ltb_total. Qed.

Lemma option_lt_key_l (a a' b : cmdOption) :
  key a = key a' -> option_lt a b = option_lt a' b.
Proof. unfold option_lt, key. intros ->. reflexivity. Qed.

Lemma option_lt_key_r (a b b' : cmdOption) :
  key b = key b' -> option_lt a b = option_lt a b'.
Proof. unfold option_lt, key. intros ->. reflexivity. Qed.

Lemma option_lt_irrefl_key (a b : cmdOption) :
  key a = key b -> option_lt a b = false.
Proof. unfold option_lt, key. intros ->. apply str_ltb_irrefl. Qed.

(** ** Lookup and insertion in the set *)

Lemma set_find_key (k k' : cmdOption) (s : list cmdOption) :
  key k = key k' -> set_find k s = set_find k' s.
Proof.
  intros H. induction s as [|x r IH]; simpl; [reflexivity|].
  rewrite (option_lt_key_r x k k' H), (option_lt_key_l k k' x H), IH.
  reflexivity.
Qed.

(** [insert] reports a new element exactly when [find] finds none. *)
Lemma set_insert_find (o : cmdOption) (s : list cmdOption) :
  snd (set_insert o s)
  = match set_find o s with None => true | Some _ => false end.
Proof.
  induction s as [|x r IH]; simpl; [reflexivity|].
  destruct (option_lt o x) eqn:Hox.
  - rewrite (option_lt_asym _ _ Hox). reflexivity.
  - destruct (option_lt x o) eqn:Hxo.
    + destruct (set_insert o r) as [r' i]. simpl in *. rewrite IH.
      destruct (set_find o r) as [[[? ?] ?]|]; reflexivity.
    + reflexivity.
Qed.

Lemma set_insert_length (o : cmdOption) (s : list cmdOption) :
  length (fst (set_insert o s))
  = if snd (set_insert o s) then S (length s) else length s.
Proof.
  induction s as [|x r IH]; simpl; [reflexivity|].
  destruct (option_lt o x); [reflexivity|].
  destruct (option_lt x o); [|reflexivity].
  destruct (set_insert o r) as [r' [|]]; simpl in *; rewrite IH; reflexivity.
Qed.

Lemma set_insert_rejected (o : cmdOption) (s : list cmdOption) :
  snd (set_insert o s) = false -> fst (set_insert o s) = s.
Proof.
  induction s as [|x r IH]; simpl; [discriminate|].
  destruct (option_lt o x); [discriminate|].
  destruct (option_lt x o); [|reflexivity].
  destruct (set_insert o r) as [r' i]; simpl in *.
  intros H. rewrite (IH H). reflexivity.
Qed.

Lemma set_insert_member (o : cmdOption) (s : list cmdOption) :
  snd (set_insert o s) = true ->
  forall y, In y (fst (set_insert o s)) <-> y = o \/ In y s.
Proof.
  induction s as [|x r IH]; simpl.
  - intros _ y. split; [intros [<-|[]]; auto | intros [->|[]]; auto].
  - destruct (option_lt o x).
    + intros _ y. simpl. split; [intros [<-|H]; auto | intros [->|H]; auto].
    + destruct (option_lt x o); [|discriminate].
      destruct (set_insert o r) as [r' i]; simpl in *.
      intros Hi y. specialize (IH Hi y). tauto.
Qed.

(** In a well-ordered set a member is found under its own name. *)
Lemma set_find_member (k o : cmdOption) (s : list cmdOption) :
  set_ok s = true -> In o s -> key k = key o ->
  exists b a, set_find k s = Some (b, o, a).
Proof.
  intros Hok Hin Hk.
  destruct (in_split _ _ Hin) as (b & a & ->).
  exists b, a. destruct (set_ok_app _ _ _ Hok) as [Hb _].
  apply set_find_intro.
  - eapply Forall_impl; [|exact Hb]. intros x Hx. simpl in Hx.
    rewrite (option_lt_key_r x k o Hk). exact Hx.
  - apply option_lt_irrefl_key. symmetry. exact Hk.
  - apply option_lt_irrefl_key. exact Hk.
Qed.

Lemma set_find_found (k : cmdOption) (s : list cmdOption) b o a :
  set_find k s = Some (b, o, a) -> In o s /\ key o = key k.
Proof.
  intros H. apply set_find_spec in H. destruct H as (-> & _ & Hok & Hko).
  split; [apply in_elt | apply option_lt_total; assumption].
Qed.

Lemma set_find_none (k : cmdOption) (s : list cmdOption) :
  set_ok s = true -> set_find k s = None ->
  forall o, In o s -> key o <> key k.
Proof.
  intros Hok Hf o Hin Hk.
  destruct (set_find_member k o s Hok Hin (eq_sym Hk)) as (b & a & E).
  congruence.
Qed.

Lemma key_make_cmdOption (n d sh : str) :
  key (make_cmdOption n d sh) = make_lower n.
Proof. reflexivity. Qed.

(** ** Declaring and looking up options *)

(** [add_param_option] succeeds exactly when [has_param_option] does not
    find the long name; on success the count grows by one, no error is
    logged and the option is read back, as it was given, under its long
    name; on failure the option set is the one before. *)
Theorem add_param_option_outcome (st : cmdParse) (o : cmdOption) :
  fst (add_param_option st o) = negb (has_param_option st (longName o))
  /\ (fst (add_param_option st o) = true ->
      get_param_option_count (snd (add_param_option st o))
      = (get_param_option_count st + 1)%Z
      /\ get_errors (snd (add_param_option st o)) = get_errors st
      /\ has_param_option (snd (add_param_option st o)) (longName o) = true
      /\ get_param_option (snd (add_param_option st o)) (longName o) = o)
  /\ (fst (add_param_option st o) = false ->
      m_parameter_options (snd (add_param_option st o))
      = m_parameter_options st).
Proof.
  pose proof (set_insert_find o (m_parameter_options st)) as Hf.
  pose proof (set_insert_length o (m_parameter_options st)) as Hl.
  pose proof (set_insert_rejected o (m_parameter_options st)) as Hr.
  unfold add_param_option, has_param_option.
  rewrite (set_find_key (make_cmdOption (longName o) [] []) o) by reflexivity.
  destruct (set_insert o (m_parameter_options st)) as [s i] eqn:Hi.
  simpl in Hf, Hl, Hr. subst i.
  destruct (set_find o (m_parameter_options st)) as [it|]; simpl.
  - split; [reflexivity|]. split; [discriminate|]. intros _.
    apply Hr. reflexivity.
  - split; [reflexivity|]. split; [|discriminate]. intros _.
    destruct (set_find_inserted (make_cmdOption (longName o) [] []) o _ _
                eq_refl Hi) as (b & a & Hfo).
    unfold get_param_option_count, get_param_option, has_param_option.
    simpl. rewrite Hfo, Hl. repeat split. lia.
Qed.

Lemma add_param_option_outcome_witness :
  fst (add_param_option sample (make_cmdOption (lit "Verbose") (lit "0") []))
  = true
  /\ get_param_option_count
       (snd (add_param_option sample
               (make_cmdOption (lit "Verbose") (lit "0") [])))
     = (get_param_option_count sample + 1)%Z.
Proof.
  split; [reflexivity|].
  apply (proj1 (proj2 (add_param_option_outcome sample
                         (make_cmdOption (lit "Verbose") (lit "0") [])))).
  reflexivity.
Defined.

(** On a well-ordered set, [has_param_option] is true exactly when an
    option is declared whose long name equals the given name up to case;
    [get_param_option] then returns that declared option, and returns the
    default-constructed option (all fields empty) when there is none. *)
Theorem lookup_by_folded_name (st : cmdParse) (name : str) :
  set_ok (m_parameter_options st) = true ->
  (has_param_option st name = true
   <-> exists o, In o (m_parameter_options st)
                 /\ make_lower (longName o) = make_lower name)
  /\ (has_param_option st name = true ->
      In (get_param_option st name) (m_parameter_options st)
      /\ make_lower (longName (get_param_option st name)) = make_lower name)
  /\ (has_param_option st name = false ->
      get_param_option st name = empty_cmdOption).
Proof.
  intros Hok. unfold has_param_option, get_param_option.
  destruct (set_find _ _) as [[[b o] a]|] eqn:Hf.
  - destruct (set_find_found _ _ _ _ _ Hf) as (Hin & Hk).
    split; [|split]; [|auto|discriminate].
    split; [eauto|reflexivity].
  - split; [|split]; [|discriminate|reflexivity].
    split; [discriminate|]. intros (o & Hin & Hk).
    exfalso. apply (set_find_none _ _ Hok Hf o Hin). exact Hk.
Qed.

Lemma lookup_by_folded_name_witness :
  set_ok (m_parameter_options sample) = true
  /\ (has_param_option sample (lit "bufferSIZE") = true
      <-> exists o, In o (m_parameter_options sample)
                    /\ make_lower (longName o) = make_lower (lit "bufferSIZE")).
Proof.
  split; [reflexivity|].
  apply (proj1 (lookup_by_folded_name sample (lit "bufferSIZE") eq_refl)).
Defined.

(** Two names that differ by case only are the same name for the
    lookups. *)
Theorem lookup_ignores_case (st : cmdParse) (name name' : str) :
  make_lower name = make_lower name' ->
  has_param_option st name = has_param_option st name'
  /\ get_param_option st name = get_param_option st name'.
Proof.
  intros H. unfold has_param_option, get_param_option.
  rewrite (set_find_key (make_cmdOption name [] [])
             (make_cmdOption name' [] [])) by exact H.
  split; reflexivity.
Qed.

Lemma lookup_ignores_case_witness :
  has_param_option sample (lit "BUFFERSIZE")
  = has_param_option sample (lit "buffersize")
  /\ get_param_option sample (lit "BUFFERSIZE")
     = get_param_option sample (lit "buffersize").
Proof.
  apply (lookup_ignores_case sample (lit "BUFFERSIZE") (lit "buffersize")).
  reflexivity.
Defined.

(** ** Short names *)

Lemma getFullOptionName_split (s : list cmdOption) (short : str) :
  getFullOptionName s short <> [] ->
  exists b o a,
    s = b ++ o :: a /\ shortName o = short
    /\ longName o = getFullOptionName s short
    /\ Forall (fun x => shortName x <> short) b.
Proof.
  induction s as [|x r IH]; simpl; [contradiction|].
  destruct (str_eqb (shortName x) short) eqn:E.
  - intros _. apply str_eqb_eq in E. exists [], x, r. repeat split; auto.
  - intros H. destruct (IH H) as (b & o & a & -> & Hs & Hl & Hb).
    exists (x :: b), o, a. repeat split; auto.
    constructor; [|exact Hb]. intros Hx.
    apply str_eqb_eq in Hx. congruence.
Qed.

(** The short-name resolution returns the long name of the first option,
    in the order of the set, whose short name is the given text, compared
    exactly; on a well-ordered set that long name is declared, and the
    lookup that follows in [parseOptions] returns that very option. *)
Theorem short_name_resolves_to_declared (st : cmdParse) (short : str) :
  set_ok (m_parameter_options st) = true ->
  getFullOptionName (m_parameter_options st) short <> [] ->
  exists b o a,
    m_parameter_options st = b ++ o :: a
    /\ Forall (fun x => shortName x <> short) b
    /\ shortName o = short
    /\ longName o = getFullOptionName (m_parameter_options st) short
    /\ has_param_option st (getFullOptionName (m_parameter_options st) short)
       = true
    /\ get_param_option st (getFullOptionName (m_parameter_options st) short)
       = o.
Proof.
  intros Hok Hne.
  destruct (getFullOptionName_split _ _ Hne) as (b & o & a & Hs & Hsh & Hl & Hb).
  exists b, o, a. repeat split; auto.
  - unfold has_param_option.
    destruct (set_find_member
                (make_cmdOption (getFullOptionName (m_parameter_options st) short)
                   [] []) o _ Hok) as (b' & a' & Hf).
    + rewrite Hs. apply in_elt.
    + unfold key. simpl. rewrite Hl. reflexivity.
    + rewrite Hf. reflexivity.
  - unfold get_param_option.
    destruct (set_find_member
                (make_cmdOption (getFullOptionName (m_parameter_options st) short)
                   [] []) o _ Hok) as (b' & a' & Hf).
    + rewrite Hs. apply in_elt.
    + unfold key. simpl. rewrite Hl. reflexivity.
    + rewrite Hf. reflexivity.
Qed.

Lemma short_name_resolves_to_declared_witness :
  exists b o a,
    m_parameter_options sample = b ++ o :: a
    /\ Forall (fun x => shortName x <> lit "o") b
    /\ shortName o = lit "o"
    /\ longName o = getFullOptionName (m_parameter_options sample) (lit "o")
    /\ has_param_option sample
         (getFullOptionName (m_parameter_options sample) (lit "o")) = true
    /\ get_param_option sample
         (getFullOptionName (m_parameter_options sample) (lit "o")) = o.
Proof.
  apply (short_name_resolves_to_declared sample (lit "o")).
  - reflexivity.
  - discriminate.
Defined.

(** No option with that short name: the resolution returns the empty
    string.  The comparison is exact, so a short name in another case is
    not resolved. *)
Theorem short_name_unknown (s : list cmdOption) (short : str) :
  Forall (fun x => shortName x <> short) s ->
  getFullOptionName s short = [].
Proof.
  induction 1 as [|x r Hx _ IH]; simpl; [reflexivity|].
  destruct (str_eqb (shortName x) short) eqn:E; [|exact IH].
  apply str_eqb_eq in E. contradiction.
Qed.

Lemma short_name_unknown_witness :
  getFullOptionName (m_parameter_options sample) (lit "B") = [].
Proof.
  apply (short_name_unknown (m_parameter_options sample) (lit "B")).
  repeat constructor; discriminate.
Defined.

(** ** What a parse touches *)

Lemma update_option_frame (full : str) (st : cmdParse) (fl : flow) :
  update_option full st = Returns fl ->
  m_executable_name (flow_state fl) = m_executable_name st
  /\ m_arguments (flow_state fl) = m_arguments st
  /\ match fl with
     | Continue st' => m_errors st' = m_errors st
     | Return b st' =>
         b = false
         /\ exists name, m_errors st'
                         = m_errors st ++ [lit "Option not found: " ++ name]
                         /\ m_parameter_options st' = m_parameter_options st
     end.
Proof.
  unfold update_option.
  destruct (split_name_value _) as [[name value]|f]; simpl; [|discriminate].
  assert (Hfind : forall n,
    match set_find (make_cmdOption n [] []) (m_parameter_options st) with
    | Some itF =>
        Returns (Continue (set_parameter_options st
          (fst (set_insert (set_paramValue (snd (fst itF))
                              (trim (trim value " ") dquote))
                  (set_erase itF)))))
    | None => Returns (Return false (logError st (lit "Option not found: " ++ n)))
    end = Returns fl ->
    m_executable_name (flow_state fl) = m_executable_name st
    /\ m_arguments (flow_state fl) = m_arguments st
    /\ match fl with
       | Continue st' => m_errors st' = m_errors st
       | Return b st' =>
           b = false
           /\ exists name, m_errors st'
                           = m_errors st ++ [lit "Option not found: " ++ name]
                           /\ m_parameter_options st' = m_parameter_options st
       end).
  { intros n. destruct (set_find _ _); intros [= <-]; simpl; eauto 6. }
  destruct (_ && _).
  - apply Hfind.
  - destruct (getFullOptionName _ _) as [|c n] eqn:Hn.
    + intros [= <-]. simpl. eauto 6.
    + apply Hfind.
Qed.

Lemma parse_loop_frame (cursor : list str) (st : cmdParse) b st' :
  parse_loop cursor st = Returns (b, st') ->
  m_executable_name st' = m_executable_name st
  /\ m_arguments st' = m_arguments st
  /\ (b = true -> m_errors st' = m_errors st)
  /\ (b = false ->
      exists name, m_errors st'
                   = m_errors st ++ [lit "Option not found: " ++ name]).
Proof.
  remember (length cursor) as n eqn:Hn.
  revert cursor st Hn.
  induction n as [n IH] using lt_wf_ind. intros cursor st Hn.
  rewrite parse_loop_step.
  destruct cursor as [|t l].
  { intros [= <- <-]. repeat split; auto. discriminate. }
  pose proof (find_if_length isOptionPrefix (t :: l)) as Hlen.
  destruct (find_if isOptionPrefix (t :: l)) as [|tok start1]; [discriminate|].
  destruct (update_option _ st) as [[st1|b1 st1]|f] eqn:Hu; [| |discriminate].
  - apply update_option_frame in Hu. simpl in Hu.
    destruct Hu as (He & Ha & Herr). intros Hp.
    pose proof (find_if_length isOptionPrefix start1).
    apply (IH (length (find_if isOptionPrefix start1))
              ltac:(simpl in *; lia) _ _ eq_refl) in Hp.
    destruct Hp as (He' & Ha' & Ht & Hf).
    rewrite He, Ha, Herr in *. repeat split; auto.
  - intros [= <- <-]. apply update_option_frame in Hu.
    cbn [flow_state] in Hu.
    destruct Hu as (He & Ha & Hb & name & Herr & _). subst b1.
    split; [exact He|]. split; [exact Ha|]. split; [discriminate|].
    intros _. exists name. exact Herr.
Qed.

(** [init] is fail-fast on errors: when it returns true it has logged
    nothing, and when it returns false it has appended exactly one error to
    those already there, either "No arguments given to application" or an
    "Option not found: ..." message.  So on a parser without errors
    [has_errors] after [init] is the negation of its result. *)
Theorem init_result_and_errors
    (argc : Z) (argv : list str) (st : cmdParse) b st' :
  init argc argv st = Returns (b, st') ->
  (b = true -> get_errors st' = get_errors st)
  /\ (b = false ->
      get_errors st'
      = get_errors st ++ [lit "No arguments given to application"]
      \/ exists name,
           get_errors st'
           = get_errors st ++ [lit "Option not found: " ++ name])
  /\ (get_errors st = [] -> has_errors st' = negb b).
Proof.
  unfold init, get_errors, has_errors.
  destruct (Z.leb_spec argc 0) as [H|H].
  - intros [= <- <-]. simpl. split; [discriminate|]. split; [auto|].
    intros ->. reflexivity.
  - destruct (nth_error argv 0) as [exe|]; [|discriminate].
    destruct (copy_arguments _ _ _ _) as [st1|f] eqn:Hc; [|discriminate].
    simpl. unfold parseOptions. intros Hp.
    apply copy_arguments_spec in Hc. destruct Hc as (_ & _ & He & _).
    apply parse_loop_frame in Hp. destruct Hp as (_ & _ & Ht & Hf).
    simpl in He. rewrite He in *.
    split; [exact Ht|]. split; [intros Hb; right; auto|].
    intros Hnil. destruct b; simpl.
    + rewrite (Ht eq_refl), Hnil. reflexivity.
    + destruct (Hf eq_refl) as (name & ->). rewrite Hnil. reflexivity.
Qed.

Lemma init_result_and_errors_witness :
  exists st',
    init 3 [lit "Sample.exe"; lit "-b 6.3"; lit "--zz 7"] sample
    = Returns (false, st')
    /\ has_errors st' = negb false.
Proof.
  eexists. split; [vm_compute; reflexivity|].
  eapply (proj2 (proj2 (init_result_and_errors 3
            [lit "Sample.exe"; lit "-b 6.3"; lit "--zz 7"] sample false _ _))).
  reflexivity.
  Unshelve. vm_compute. reflexivity.
Defined.

(** Whatever the parse decides, an [init] with a positive count that
    returns has recorded [argv[0]] as the executable name and has appended
    the tokens [argv[1]] to [argv[argc - 1]], each trimmed of white space
    and in order, to the raw arguments already there: the list is not
    reset, and tokens beyond [argc] are not read. *)
Theorem init_records_arguments
    (argc : Z) (argv : list str) (st : cmdParse) b st' :
  (0 < argc)%Z ->
  init argc argv st = Returns (b, st') ->
  hd_error argv = Some (m_executable_name st')
  /\ get_arguments st'
     = get_arguments st
       ++ map (fun a => trim a " ") (firstn (Z.to_nat argc - 1) (tl argv))
  /\ (Z.to_nat argc <= length argv)%nat.
Proof.
  intros Hpos. unfold init, get_arguments.
  destruct (Z.leb_spec argc 0) as [H|_]; [lia|].
  destruct argv as [|exe tokens]; [discriminate|].
  change (nth_error (exe :: tokens) 0) with (Some exe). cbv iota beta.
  destruct (copy_arguments (Z.to_nat argc - 1) 1 (exe :: tokens)
              (set_executable_name st exe)) as [st1|f] eqn:Hc; [|discriminate].
  simpl. unfold parseOptions. intros Hp.
  apply copy_arguments_spec in Hc. destruct Hc as (He & _ & _ & Ha & Hl).
  apply parse_loop_frame in Hp. destruct Hp as (He' & Ha' & _).
  cbn [skipn set_executable_name m_executable_name m_arguments tl] in *.
  rewrite He', He, Ha', Ha. repeat split.
  rewrite length_firstn in Hl. cbn [length]. lia.
Qed.

Lemma init_records_arguments_witness :
  exists st',
    init 2 [lit "Sample.exe"; lit " --zz 7 "; lit "-b 1"] sample
    = Returns (false, st')
    /\ hd_error [lit "Sample.exe"; lit " --zz 7 "; lit "-b 1"]
       = Some (m_executable_name st')
    /\ get_arguments st'
       = get_arguments sample
         ++ map (fun a => trim a " ")
              (firstn (Z.to_nat 2 - 1)
                 (tl [lit "Sample.exe"; lit " --zz 7 "; lit "-b 1"]))
    /\ (Z.to_nat 2 <= length [lit "Sample.exe"; lit " --zz 7 "; lit "-b 1"])%nat.
Proof.
  eexists. split; [vm_compute; reflexivity|].
  eapply (init_records_arguments 2
            [lit "Sample.exe"; lit " --zz 7 "; lit "-b 1"] sample false).
  - lia.
  - vm_compute. reflexivity.
Defined.

Lemma has_param_option_same (s s' : list cmdOption) (k : cmdOption) :
  Forall2 same_declaration s s' ->
  match set_find k s with None => false | Some _ => true end
  = match set_find k s' with None => false | Some _ => true end.
Proof.
  intros H. pose proof (set_find_same k s s' H) as Hs.
  destruct (set_find k s) as [[[? ?] ?]|], (set_find k s') as [[[? ?] ?]|];
    auto; contradiction.
Qed.

(** A parse assigns values and nothing else: after an [init] that
    returns, with success or not, the number of declared options is the
    one before, the set is still well ordered, and every name finds an
    option exactly as before, with the long name, the short name and the
    default it had. *)
Theorem init_keeps_declarations
    (argc : Z) (argv : list str) (st : cmdParse) b st' :
  set_ok (m_parameter_options st) = true ->
  init argc argv st = Returns (b, st') ->
  get_param_option_count st' = get_param_option_count st
  /\ set_ok (m_parameter_options st') = true
  /\ forall name,
       has_param_option st' name = has_param_option st name
       /\ longName (get_param_option st' name)
          = longName (get_param_option st name)
       /\ shortName (get_param_option st' name)
          = shortName (get_param_option st name)
       /\ defaultValue (get_param_option st' name)
          = defaultValue (get_param_option st name).
Proof.
  intros Hok Hinit.
  destruct (init_preserved _ _ _ _ _ Hok Hinit) as (Hsame & _).
  split; [|split].
  - unfold get_param_option_count. f_equal. symmetry.
    apply (Forall2_length Hsame).
  - rewrite <- (set_ok_same _ _ Hsame). exact Hok.
  - intros name. split.
    + unfold has_param_option. symmetry. apply has_param_option_same, Hsame.
    + pose proof (set_find_same (make_cmdOption name [] []) _ _ Hsame) as H.
      unfold get_param_option.
      destruct (set_find _ (m_parameter_options st)) as [[[? o] ?]|],
               (set_find _ (m_parameter_options st')) as [[[? o'] ?]|];
        try contradiction; [|repeat split].
      destruct H as (Hl & Hs & Hd). repeat split; symmetry; assumption.
Qed.

Lemma init_keeps_declarations_witness :
  exists st',
    init 3 [lit "Sample.exe"; lit "-b 6.3"; lit "--zz 7"] sample
    = Returns (false, st')
    /\ get_param_option_count st' = get_param_option_count sample
    /\ set_ok (m_parameter_options st') = true
    /\ forall name,
         has_param_option st' name = has_param_option sample name
         /\ longName (get_param_option st' name)
            = longName (get_param_option sample name)
         /\ shortName (get_param_option st' name)
            = shortName (get_param_option sample name)
         /\ defaultValue (get_param_option st' name)
            = defaultValue (get_param_option sample name).
Proof.
  eexists. split; [vm_compute; reflexivity|].
  eapply (init_keeps_declarations 3
            [lit "Sample.exe"; lit "-b 6.3"; lit "--zz 7"] sample false).
  - reflexivity.
  - vm_compute. reflexivity.
Defined.

(** ** Assignments *)

Lemma str_eqb_refl (a : str) : str_eqb a a = true.
Proof. apply str_eqb_eq. reflexivity. Qed.


Lemma set_find_other (k : cmdOption) b o o' a :
  longName o' = longName o -> key o <> key k ->
  match set_find k (b ++ o :: a), set_find k (b ++ o' :: a) with
  | Some (_, x, _), Some (_, x', _) => x = x'
  | None, None => True
  | _, _ => False
  end.
Proof.
  intros Hn Hk. induction b as [|y b IH]; simpl.
  - rewrite (option_lt_longName_l o' o k Hn), (option_lt_longName_r k o' o Hn).
    destruct (option_lt o k) eqn:Hok.
    + destruct (set_find k a) as [[[? ?] ?]|]; auto.
    + destruct (option_lt k o) eqn:Hko; [exact I|].
      exfalso. apply Hk. apply option_lt_total; assumption.
  - destruct (option_lt y k).
    + destruct (set_find k (b ++ o :: a)) as [[[? ?] ?]|],
               (set_find k (b ++ o' :: a)) as [[[? ?] ?]|]; auto.
    + destruct (option_lt k y); auto.
Qed.

Lemma assign_value_lookup (st : cmdParse) (name v n : str) :
  get_param_option
    (set_parameter_options st (assign_value (m_parameter_options st) name v)) n
  = if has_param_option st n && str_eqb (make_lower n) (make_lower name)
    then set_paramValue (get_param_option st n) v
    else get_param_option st n.
Proof.
  unfold get_param_option, has_param_option, assign_value.
  cbn [set_parameter_options m_parameter_options].
  destruct (str_eqb (make_lower n) (make_lower name)) eqn:E.
  - apply str_eqb_eq in E.
    rewrite (set_find_key (make_cmdOption name [] [])
               (make_cmdOption n [] [])) by (symmetry; exact E).
    destruct (set_find (make_cmdOption n [] []) (m_parameter_options st))
      as [[[b o] a]|] eqn:Hf; simpl.
    + rewrite (lookup_updated st _ b o a _ Hf) by reflexivity. reflexivity.
    + rewrite Hf. reflexivity.
  - rewrite andb_false_r.
    destruct (set_find (make_cmdOption name [] []) (m_parameter_options st))
      as [[[b o] a]|] eqn:Hf; [|reflexivity].
    destruct (set_find_found _ _ _ _ _ Hf) as (_ & Hk).
    apply set_find_spec in Hf. destruct Hf as (Hs & _). rewrite Hs.
    pose proof (set_find_other (make_cmdOption n [] []) b o
                  (set_paramValue o v) a eq_refl) as H.
    destruct (set_find (make_cmdOption n [] []) (b ++ o :: a))
      as [[[? x] ?]|],
      (set_find (make_cmdOption n [] []) (b ++ set_paramValue o v :: a))
      as [[[? x'] ?]|]; try reflexivity.
    + symmetry. apply H. rewrite Hk. unfold key; simpl. intros Hc.
      rewrite <- Hc, str_eqb_refl in E. discriminate.
    + exfalso. apply H. rewrite Hk. unfold key; simpl. intros Hc.
      rewrite <- Hc, str_eqb_refl in E. discriminate.
    + exfalso. apply H. rewrite Hk. unfold key; simpl. intros Hc.
      rewrite <- Hc, str_eqb_refl in E. discriminate.
Qed.











Lemma short_name_resolves_to_declared_aux (st : cmdParse) (short : str) :
  set_ok (m_parameter_options st) = true ->
  getFullOptionName (m_parameter_options st) short <> [] ->
  has_param_option st (getFullOptionName (m_parameter_options st) short) = true
  /\ shortName (get_param_option st
                  (getFullOptionName (m_parameter_options st) short)) = short.
Proof.
  intros Hok Hne.
  destruct (getFullOptionName_split _ _ Hne) as (b & o & a & Hs & Hsh & Hl & Hb).
  destruct (set_find_member
              (make_cmdOption (getFullOptionName (m_parameter_options st) short)
                 [] []) o _ Hok) as (b' & a' & Hf).
  - rewrite Hs. apply in_elt.
  - unfold key. simpl. rewrite Hl. reflexivity.
  - unfold has_param_option, get_param_option. rewrite Hf. auto.
Qed.

(** A short-form token [-s<d>v] whose name resolves: the value is
    assigned to the option that [getFullOptionName] names, the first in
    the order of the set with that short name, and [init] returns true
    without logging. *)
Theorem short_option_assigns_resolved
    (st : cmdParse) (exe s v : str) (d : ascii) :
  set_ok (m_parameter_options st) = true ->
  m_arguments st = [] ->
  plain_name s = true -> is_delimiter d = true ->
  trim (lit "-" ++ s ++ d :: v) " " = lit "-" ++ s ++ d :: v ->
  getFullOptionName (m_parameter_options st) s <> [] ->
  init 2 [exe; lit "-" ++ s ++ d :: v] st
  = Returns (true,
      {| m_executable_name := exe;
         m_arguments := [lit "-" ++ s ++ d :: v];
         m_parameter_options :=
           assign_value (m_parameter_options st)
             (getFullOptionName (m_parameter_options st) s) (stored_value v);
         m_errors := m_errors st |})
  /\ paramValue (get_param_option
                   (set_parameter_options st
                      (assign_value (m_parameter_options st)
                         (getFullOptionName (m_parameter_options st) s)
                         (stored_value v)))
                   (getFullOptionName (m_parameter_options st) s))
     = stored_value v.
Proof.
  intros Hok Ha Hs Hd Htrim Hne.
  destruct (short_name_resolves_to_declared_aux st s Hok Hne) as (Hhas & _).
  split.
  - pose proof (init_tokens exe [lit "-" ++ s ++ d :: v] st) as H.
    simpl length in H. change (Z.of_nat 2) with 2%Z in H.
    rewrite H. clear H. cbn [map]. rewrite Htrim, Ha. unfold parseOptions.
    cbn [app m_arguments].
    rewrite parse_loop_one_segment; [|reflexivity|constructor].
    cbn [concat]. rewrite app_nil_r.
    unfold update_option.
    pose proof (plain_name_spec s Hs) as (_ & Hnd & Hnp).
    pose proof (isOptionPrefix_name_delim s v d Hnp Hd) as Hp.
    replace (Ascii.eqb (index (lit "-" ++ s ++ d :: v) 0) "-"
             && Ascii.eqb (index (lit "-" ++ s ++ d :: v) 1) "-") with false.
    rewrite (ltrim_dash _ Hp), (split_at_delimiter s v d Hnd Hd).
    simpl bind. cbv beta. simpl fst. simpl snd.
    rewrite (trim_plain_name s Hs).
    cbn [m_parameter_options].
    destruct (getFullOptionName (m_parameter_options st) s) as [|c n] eqn:Hg;
      [contradiction|].
    unfold has_param_option in Hhas. unfold assign_value.
    destruct (set_find (make_cmdOption (c :: n) [] []) (m_parameter_options st))
      as [[[b o] a]|] eqn:Hf; [|discriminate].
    pose proof (update_found
                  {| m_executable_name := exe;
                     m_arguments := [lit "-" ++ s ++ d :: v];
                     m_parameter_options := m_parameter_options st;
                     m_errors := m_errors st |}
                  _ b o a (trim (trim v " ") dquote) Hok Hf) as (Hi & _).
    change (snd (fst (b, o, a))) with o. rewrite Hi. reflexivity.
  - rewrite assign_value_lookup, Hhas, str_eqb_refl. reflexivity.
Qed.

Lemma short_option_assigns_resolved_witness :
  init 2 [lit "Sample.exe"; lit "-" ++ lit "b" ++ " "%char :: lit "6.3"]
    sample_short
  = Returns (true,
      {| m_executable_name := lit "Sample.exe";
         m_arguments := [lit "-" ++ lit "b" ++ " "%char :: lit "6.3"];
         m_parameter_options :=
           assign_value (m_parameter_options sample_short)
             (getFullOptionName (m_parameter_options sample_short) (lit "b"))
             (stored_value (lit "6.3"));
         m_errors := m_errors sample_short |})
  /\ paramValue (get_param_option
                   (set_parameter_options sample_short
                      (assign_value (m_parameter_options sample_short)
                         (getFullOptionName (m_parameter_options sample_short)
                            (lit "b"))
                         (stored_value (lit "6.3"))))
                   (getFullOptionName (m_parameter_options sample_short)
                      (lit "b")))
     = stored_value (lit "6.3").
Proof.
  apply (short_option_assigns_resolved sample_short (lit "Sample.exe")
           (lit "b") (lit "6.3") " "%char);
    try reflexivity; discriminate.
Defined.

(** ** The constructor from a vector of options *)

Lemma add_param_option_accounting (st : cmdParse) (o : cmdOption) :
  length (m_parameter_options (snd (add_param_option st o)))
  + length (m_errors (snd (add_param_option st o)))
  = S (length (m_parameter_options st) + length (m_errors st)).
Proof.
  unfold add_param_option.
  pose proof (set_insert_length o (m_parameter_options st)) as Hl.
  pose proof (set_insert_rejected o (m_parameter_options st)) as Hr.
  destruct (set_insert o (m_parameter_options st)) as [s [|]]; simpl in *.
  - rewrite Hl. reflexivity.
  - rewrite (Hr eq_refl), length_app. simpl. lia.
Qed.

Lemma cmdParse_of_total (optionVec : list cmdOption) :
  length (m_parameter_options (cmdParse_of optionVec))
  + length (m_errors (cmdParse_of optionVec))
  = length optionVec.
Proof.
  unfold cmdParse_of.
  assert (G : forall st,
    length (m_parameter_options
              (fold_left (fun st o => snd (add_param_option st o)) optionVec st))
    + length (m_errors
                (fold_left (fun st o => snd (add_param_option st o)) optionVec st))
    = length optionVec + (length (m_parameter_options st) + length (m_errors st))).
  { induction optionVec as [|o l IH]; intros st; simpl; [reflexivity|].
    rewrite IH, add_param_option_accounting. lia. }
  specialize (G new_cmdParse). simpl in G. lia.
Qed.

(** The constructor that takes a vector adds the options one by one and
    drops none silently: the number of options declared plus the number of
    errors logged is the length of the vector, and the set is well
    ordered. *)
Theorem cmdParse_of_accounting (optionVec : list cmdOption) :
  (get_param_option_count (cmdParse_of optionVec)
   + Z.of_nat (length (get_errors (cmdParse_of optionVec))))%Z
  = Z.of_nat (length optionVec)
  /\ set_ok (m_parameter_options (cmdParse_of optionVec)) = true.
Proof.
  split; [|apply cmdParse_of_ok].
  unfold get_param_option_count, get_errors.
  pose proof (cmdParse_of_total optionVec). lia.
Qed.

(** ** The order of the declarations *)

Lemma set_ok_not_in (x : cmdOption) (r : list cmdOption) :
  set_ok (x :: r) = true -> ~ In x r.
Proof.
  simpl. rewrite andb_true_iff, forallb_forall. intros [Hx _] Hin.
  specialize (Hx x Hin). unfold option_lt in Hx.
  rewrite str_ltb_irrefl in Hx. discriminate.
Qed.

(** Two well-ordered sets with the same members are the same list. *)
Lemma set_ok_unique (s s' : list cmdOption) :
  set_ok s = true -> set_ok s' = true ->
  (forall o, In o s <-> In o s') -> s = s'.
Proof.
  revert s'; induction s as [|x r IH]; intros [|y r'] Hs Hs' Hm.
  - reflexivity.
  - exfalso. apply (proj2 (Hm y)). left; reflexivity.
  - exfalso. apply (proj1 (Hm x)). left; reflexivity.
  - assert (x = y).
    { destruct (proj1 (Hm x) (or_introl eq_refl)) as [->|Hx]; [reflexivity|].
      destruct (proj2 (Hm y) (or_introl eq_refl)) as [<-|Hy]; [reflexivity|].
      exfalso. simpl in Hs, Hs'.
      apply andb_true_iff in Hs, Hs'. destruct Hs as [Hs _], Hs' as [Hs' _].
      rewrite forallb_forall in Hs, Hs'.
      pose proof (Hs y Hy) as H1. pose proof (Hs' x Hx) as H2.
      rewrite (option_lt_asym _ _ H1) in H2. discriminate. }
    subst y. f_equal. apply IH.
    + simpl in Hs. apply andb_true_iff in Hs. tauto.
    + simpl in Hs'. apply andb_true_iff in Hs'. tauto.
    + intros o. pose proof (set_ok_not_in _ _ Hs). pose proof (set_ok_not_in _ _ Hs').
      specialize (Hm o). simpl in Hm. split; intros Ho.
      * destruct (proj1 Hm (or_intror Ho)) as [<-|]; [contradiction|assumption].
      * destruct (proj2 Hm (or_intror Ho)) as [<-|]; [contradiction|assumption].
Qed.

Lemma add_sequence_distinct (l : list cmdOption) (st : cmdParse) :
  NoDup (map key l) ->
  (forall o x, In o l -> In x (m_parameter_options st) -> key x <> key o) ->
  let st' := fold_left (fun st o => snd (add_param_option st o)) l st in
  (forall y, In y (m_parameter_options st')
             <-> In y (m_parameter_options st) \/ In y l)
  /\ m_errors st' = m_errors st
  /\ m_executable_name st' = m_executable_name st
  /\ m_arguments st' = m_arguments st.
Proof.
  revert st; induction l as [|o l IH]; intros st Hnd Hfresh; simpl.
  - repeat split; auto. intros [H|[]]; exact H.
  - inversion Hnd as [|? ? Hnotin Hnd']; subst.
    assert (Hnone : set_find o (m_parameter_options st) = None).
    { destruct (set_find o (m_parameter_options st)) as [[[b x] a]|] eqn:Hf;
        [|reflexivity].
      destruct (set_find_found _ _ _ _ _ Hf) as (Hin & Hk).
      exfalso. apply (Hfresh o x (or_introl eq_refl) Hin Hk). }
    pose proof (set_insert_find o (m_parameter_options st)) as Hi.
    rewrite Hnone in Hi.
    pose proof (set_insert_member o (m_parameter_options st) Hi) as Hm.
    assert (Hadd : add_param_option st o
                   = (true, set_parameter_options st
                              (fst (set_insert o (m_parameter_options st))))).
    { unfold add_param_option.
      destruct (set_insert o (m_parameter_options st)) as [s i].
      simpl in Hi. subst i. reflexivity. }
    rewrite Hadd. cbn [snd].
    specialize (IH (set_parameter_options st
                      (fst (set_insert o (m_parameter_options st)))) Hnd').
    cbn [set_parameter_options m_parameter_options m_errors
         m_executable_name m_arguments] in IH.
    destruct IH as (Hmem & He & Hx & Ha).
    + intros o' x Ho' Hx. apply Hm in Hx. destruct Hx as [->|Hx].
      * intros Hk. apply Hnotin. rewrite Hk. apply in_map. exact Ho'.
      * apply (Hfresh o' x (or_intror Ho') Hx).
    + repeat split; auto.
      * intros Hy. apply Hmem in Hy. rewrite Hm in Hy.
        destruct Hy as [[->|Hy]|Hy]; auto.
      * intros Hy. apply Hmem. rewrite Hm.
        destruct Hy as [Hy|[<-|Hy]]; auto.
Qed.

(** Options with pairwise different long names, up to case, are all
    declared without error, and the parser built from them does not depend
    on the order in which they are given: the set, and with it the help
    string and every lookup, is the same for every permutation of the
    vector. *)
Theorem declaration_order_irrelevant (l l' : list cmdOption) :
  NoDup (map key l) -> Permutation l l' ->
  cmdParse_of l = cmdParse_of l'
  /\ get_errors (cmdParse_of l) = []
  /\ get_param_option_count (cmdParse_of l) = Z.of_nat (length l)
  /\ get_helpstring (cmdParse_of l) = get_helpstring (cmdParse_of l').
Proof.
  intros Hnd Hp.
  assert (Hnd' : NoDup (map key l'))
    by (eapply Permutation_NoDup; [apply Permutation_map; exact Hp | exact Hnd]).
  pose proof (add_sequence_distinct l new_cmdParse Hnd
                ltac:(intros o x _ [])) as (Hm & He & Hx & Ha).
  pose proof (add_sequence_distinct l' new_cmdParse Hnd'
                ltac:(intros o x _ [])) as (Hm' & He' & Hx' & Ha').
  fold (cmdParse_of l) in Hm, He, Hx, Ha.
  fold (cmdParse_of l') in Hm', He', Hx', Ha'.
  assert (Hs : m_parameter_options (cmdParse_of l)
               = m_parameter_options (cmdParse_of l')).
  { apply set_ok_unique; try apply cmdParse_of_ok.
    intros o. rewrite Hm, Hm'. simpl.
    split; intros [[]|H]; right.
    - eapply Permutation_in; eauto.
    - eapply Permutation_in; [apply Permutation_sym|]; eauto. }
  assert (E : cmdParse_of l = cmdParse_of l').
  { destruct (cmdParse_of l), (cmdParse_of l'). simpl in *. congruence. }
  split; [exact E|]. split; [exact He|]. split; [|rewrite E; reflexivity].
  pose proof (cmdParse_of_total l) as Hc.
  rewrite He in Hc. simpl in Hc. unfold get_param_option_count. lia.
Qed.

Lemma declaration_order_irrelevant_witness :
  cmdParse_of [OutputFile; BufferSize] = cmdParse_of [BufferSize; OutputFile]
  /\ get_errors (cmdParse_of [OutputFile; BufferSize]) = []
  /\ get_param_option_count (cmdParse_of [OutputFile; BufferSize])
     = Z.of_nat (length [OutputFile; BufferSize])
  /\ get_helpstring (cmdParse_of [OutputFile; BufferSize])
     = get_helpstring (cmdParse_of [BufferSize; OutputFile]).
Proof.
  apply (declaration_order_irrelevant [OutputFile; BufferSize]
           [BufferSize; OutputFile]).
  - repeat constructor; simpl; intuition discriminate.
  - apply perm_swap.
Defined.

(** ** Trimming, in general *)

Lemma find_if_fixed_head {A} (p : A -> bool) (l : list A) :
  (forall x, hd_error l = Some x -> p x = true) -> find_if p l = l.
Proof.
  destruct l as [|x l]; simpl; [reflexivity|].
  intros H. rewrite (H x eq_refl). reflexivity.
Qed.

Lemma find_if_head_error {A} (p : A -> bool) (l : list A) (x : A) :
  hd_error (find_if p l) = Some x -> p x = true.
Proof.
  pose proof (find_if_head p l) as H.
  destruct (find_if p l) as [|y r]; simpl; [discriminate|].
  intros [= <-]. exact H.
Qed.

(** Erasing from both ends what fails [p]: the result is the middle of
    the string, between two runs of elements that fail [p], and neither
    starts nor ends with such an element. *)
Lemma strip_decompose {A} (p : A -> bool) (s : list A) :
  let r := rev (find_if p (rev (find_if p s))) in
  s = upto p s ++ r ++ rev (upto p (rev (find_if p s)))
  /\ (forall x, hd_error r = Some x -> p x = true)
  /\ (forall x, hd_error (rev r) = Some x -> p x = true).
Proof.
  cbv zeta.
  pose proof (upto_find_if p s) as Hs.
  pose proof (upto_find_if p (rev (find_if p s))) as Hr.
  apply (f_equal (@rev A)) in Hr.
  rewrite rev_app_distr, rev_involutive in Hr.
  split; [|split].
  - rewrite Hr. symmetry. exact Hs.
  - intros x Hx.
    destruct (rev (find_if p (rev (find_if p s)))) as [|y r] eqn:E;
      [discriminate|].
    simpl in Hx. injection Hx as ->.
    rewrite <- Hr in *. simpl in *.
    apply (find_if_head_error p s). rewrite <- Hr. reflexivity.
  - intros x. rewrite rev_involutive. apply find_if_head_error.
Qed.

Lemma strip_idempotent {A} (p : A -> bool) (s : list A) :
  let r := rev (find_if p (rev (find_if p s))) in
  rev (find_if p (rev (find_if p r))) = r.
Proof.
  cbv zeta. destruct (strip_decompose p s) as (_ & Hh & Hl).
  rewrite (find_if_fixed_head p _ Hh), (find_if_fixed_head p _ Hl).
  apply rev_involutive.
Qed.

Lemma trim_as_strip (s : str) (c : ascii) :
  trim s c
  = if Ascii.eqb c " "
    then rev (find_if (fun ch => negb (isspace ch))
                (rev (find_if (fun ch => negb (isspace ch)) s)))
    else rev (find_if (fun ch => negb (Ascii.eqb ch c))
                (rev (find_if (fun ch => negb (Ascii.eqb ch c)) s))).
Proof. reflexivity. Qed.

Lemma Forall_negb_blank (l : str) :
  Forall (fun x => negb (isspace x) = false) l -> is_blank l = true.
Proof.
  intros H. unfold is_blank. apply forallb_forall. intros x Hx.
  rewrite Forall_forall in H. specialize (H x Hx).
  apply negb_false_iff in H. exact H.
Qed.

(** ** Trimming white space *)

(** [trim] with the default character removes white space at both ends
    and nothing else: the string is a blank prefix, the trimmed text and a
    blank suffix, and the trimmed text neither starts nor ends with a
    white-space character. *)
Theorem trim_removes_surrounding_space (s : str) :
  (exists pre post,
      s = pre ++ trim s " " ++ post
      /\ is_blank pre = true /\ is_blank post = true)
  /\ existsb isspace (firstn 1 (trim s " ")) = false
  /\ existsb isspace (firstn 1 (rev (trim s " "))) = false.
Proof.
  rewrite trim_as_strip. simpl Ascii.eqb. cbv iota.
  set (p := fun ch => negb (isspace ch)).
  destruct (strip_decompose p s) as (Hs & Hh & Hl).
  split; [|split].
  - exists (upto p s), (rev (upto p (rev (find_if p s)))).
    split; [exact Hs|]. split.
    + apply Forall_negb_blank, upto_all_fail.
    + apply Forall_negb_blank, Forall_rev, upto_all_fail.
  - destruct (rev (find_if p (rev (find_if p s)))) as [|x r]; [reflexivity|].
    simpl. specialize (Hh x eq_refl). unfold p in Hh.
    apply negb_true_iff in Hh. rewrite Hh. reflexivity.
  - destruct (rev (rev (find_if p (rev (find_if p s))))) as [|x r];
      [reflexivity|].
    simpl. specialize (Hl x eq_refl). unfold p in Hl.
    apply negb_true_iff in Hl. rewrite Hl. reflexivity.
Qed.

Lemma trim_removes_surrounding_space_aux (s : str) :
  exists pre post,
    s = pre ++ trim s " " ++ post
    /\ is_blank pre = true /\ is_blank post = true.
Proof.
  rewrite trim_as_strip. simpl Ascii.eqb. cbv iota.
  set (p := fun ch => negb (isspace ch)).
  destruct (strip_decompose p s) as (Hs & _).
  exists (upto p s), (rev (upto p (rev (find_if p s)))).
  split; [exact Hs|]. split.
  - apply Forall_negb_blank, upto_all_fail.
  - apply Forall_negb_blank, Forall_rev, upto_all_fail.
Qed.

(** Trimming twice is trimming once, for the white-space trim and for the
    trim of any given character. *)
Theorem trim_idempotent (s : str) (c : ascii) :
  trim (trim s c) c = trim s c.
Proof.
  rewrite !trim_as_strip. destruct (Ascii.eqb c " "); apply strip_idempotent.
Qed.

(** A string is blank exactly when trimming it leaves nothing. *)
Theorem is_blank_iff_trim_empty (s : str) :
  is_blank s = true <-> trim s " " = [].
Proof.
  split.
  - intros H. unfold trim, ltrim, erase_after_last. simpl Ascii.eqb. cbv iota.
    rewrite (find_if_none (fun ch => negb (isspace ch)) s); [reflexivity|].
    unfold is_blank in H. rewrite forallb_forall in H.
    apply Forall_forall. intros x Hx. rewrite (H x Hx). reflexivity.
  - intros H.
    destruct (trim_removes_surrounding_space_aux s) as (pre & post & Hs & Hp & Hq).
    rewrite H in Hs. rewrite Hs. unfold is_blank in *.
    rewrite forallb_app, Hp. exact Hq.
Qed.

(** ** Case conversion *)

Lemma case_fold_char (c : ascii) :
  is_ascii7 c = true ->
  tolower (toupper c) = tolower c /\ toupper (tolower c) = toupper c
  /\ tolower (tolower c) = tolower c /\ toupper (toupper c) = toupper c.
Proof.
  destruct c as [[] [] [] [] [] [] [] []]; intros H;
    try discriminate H; repeat split; reflexivity.
Qed.

(** On 7-bit text the two conversions are idempotent and each one absorbs
    the other, so a name and its upper-case or lower-case form are the
    same name for the option lookups. *)
Theorem case_conversions_fold (s : str) :
  forallb is_ascii7 s = true ->
  make_lower (make_upper s) = make_lower s
  /\ make_upper (make_lower s) = make_upper s
  /\ make_lower (make_lower s) = make_lower s
  /\ make_upper (make_upper s) = make_upper s
  /\ forall st,
       has_param_option st (make_upper s) = has_param_option st s
       /\ has_param_option st (make_lower s) = has_param_option st s.
Proof.
  intros H. rewrite forallb_forall in H.
  assert (Hl : make_lower (make_upper s) = make_lower s
               /\ make_upper (make_lower s) = make_upper s
               /\ make_lower (make_lower s) = make_lower s
               /\ make_upper (make_upper s) = make_upper s).
  { unfold make_lower, make_upper. rewrite !map_map.
    repeat split; apply map_ext_in; intros c Hc;
      apply (case_fold_char c (H c Hc)). }
  destruct Hl as (H1 & H2 & H3 & H4). repeat split; auto.
  - unfold has_param_option.
    rewrite (set_find_key (make_cmdOption (make_upper s) [] [])
               (make_cmdOption s [] [])) by exact H1.
    reflexivity.
  - unfold has_param_option.
    rewrite (set_find_key (make_cmdOption (make_lower s) [] [])
               (make_cmdOption s [] [])) by exact H3.
    reflexivity.
Qed.

Lemma case_conversions_fold_witness :
  make_lower (make_upper (lit "BufferSize")) = make_lower (lit "BufferSize")
  /\ make_upper (make_lower (lit "BufferSize")) = make_upper (lit "BufferSize")
  /\ make_lower (make_lower (lit "BufferSize")) = make_lower (lit "BufferSize")
  /\ make_upper (make_upper (lit "BufferSize")) = make_upper (lit "BufferSize")
  /\ forall st,
       has_param_option st (make_upper (lit "BufferSize"))
       = has_param_option st (lit "BufferSize")
       /\ has_param_option st (make_lower (lit "BufferSize"))
          = has_param_option st (lit "BufferSize").
Proof.
  apply (case_conversions_fold (lit "BufferSize")). reflexivity.
Defined.

(** ** Reading a value *)

Lemma upto_subset {A} (p : A -> bool) (l : list A) (x : A) :
  In x (upto p l) -> In x l.
Proof.
  induction l as [|y l IH]; simpl; [auto|].
  destruct (p y); simpl; [intros []|]. intros [->|H]; auto.
Qed.

(** When [has_value] is true, that is when no value or a blank one is
    assigned, the integer accessor throws [std::invalid_argument] and the
    text accessor returns the empty string, whatever the default. *)
Theorem blank_value_accessors (o : cmdOption) :
  has_value o = true ->
  get_value_int o = invalid_argument /\ get_value_string o = [].
Proof.
  unfold has_value, is_blank. rewrite forallb_forall. intros H. split.
  - unfold get_value_int, stoi.
    rewrite find_if_none; [reflexivity|].
    apply Forall_forall. intros x Hx. apply upto_subset in Hx.
    cbv beta. rewrite (H x Hx). reflexivity.
  - unfold get_value_string.
    rewrite (find_if_none (fun ch => negb (isspace ch)) (paramValue o));
      [reflexivity|].
    apply Forall_forall. intros x Hx. cbv beta. rewrite (H x Hx).
    reflexivity.
Qed.

Lemma blank_value_accessors_witness :
  get_value_int BufferSize = invalid_argument
  /\ get_value_string BufferSize = [].
Proof.
  apply (blank_value_accessors BufferSize). reflexivity.
Defined.

(** The text accessor returns the first word of the assigned value: the
    value is a blank prefix, the word, and a rest that is empty or starts
    with a white-space character; the word holds no white space.  A value
    without white space is returned whole. *)
Theorem get_value_string_first_word (o : cmdOption) :
  (exists ws rest,
      paramValue o = ws ++ get_value_string o ++ rest
      /\ is_blank ws = true
      /\ forallb (fun c => negb (isspace c)) (get_value_string o) = true
      /\ forallb isspace (firstn 1 rest) = true)
  /\ (forallb (fun c => negb (isspace c)) (paramValue o) = true ->
      get_value_string o = paramValue o).
Proof.
  unfold get_value_string. set (p := fun ch => negb (isspace ch)). split.
  - exists (upto p (paramValue o)), (find_if isspace (find_if p (paramValue o))).
    split; [|split; [|split]].
    + rewrite (upto_find_if isspace). symmetry. apply upto_find_if.
    + apply Forall_negb_blank, upto_all_fail.
    + apply forallb_forall. apply Forall_forall.
      eapply Forall_impl; [|apply (upto_all_fail isspace)].
      intros x Hx. cbv beta in Hx. unfold p. rewrite Hx. reflexivity.
    + pose proof (find_if_head isspace (find_if p (paramValue o))) as H.
      destruct (find_if isspace (find_if p (paramValue o))); simpl;
        [reflexivity|]. rewrite H. reflexivity.
  - intros H. rewrite forallb_forall in H.
    rewrite (find_if_all p).
    + apply upto_none. apply Forall_forall. intros x Hx.
      apply negb_true_iff. apply (H x Hx).
    + apply Forall_forall. exact H.
Qed.

Lemma get_value_string_first_word_witness :
  forallb (fun c => negb (isspace c))
    (paramValue (set_paramValue OutputFile (lit "C://Temp//"))) = true
  /\ get_value_string (set_paramValue OutputFile (lit "C://Temp//"))
     = paramValue (set_paramValue OutputFile (lit "C://Temp//")).
Proof.
  split; [reflexivity|].
  apply (proj2 (get_value_string_first_word
                  (set_paramValue OutputFile (lit "C://Temp//")))).
  reflexivity.
Defined.

(** ** A long-form option that is not declared *)





(** ** The wide-string trims *)

(** Whatever the classification of wide characters, the wide [trim] with
    the default character splits the string into a blank prefix, the
    result and a blank suffix; the result neither starts nor ends with a
    white-space character; and a string is blank exactly when its trim is
    empty. *)
Theorem wide_trim_removes_surrounding_space
    (iswspace : N -> bool) (s : WideStringUtils.wstr) :
  (exists pre post,
      s = pre ++ WideStringUtils.trim iswspace s WideStringUtils.wspace ++ post
      /\ WideStringUtils.is_blank iswspace pre = true
      /\ WideStringUtils.is_blank iswspace post = true)
  /\ existsb iswspace
       (firstn 1 (WideStringUtils.trim iswspace s WideStringUtils.wspace))
     = false
  /\ existsb iswspace
       (firstn 1 (rev (WideStringUtils.trim iswspace s WideStringUtils.wspace)))
     = false
  /\ (WideStringUtils.is_blank iswspace s = true
      <-> WideStringUtils.trim iswspace s WideStringUtils.wspace = []).
Proof.
  unfold WideStringUtils.trim, WideStringUtils.rtrim, WideStringUtils.ltrim.
  change (N.eqb WideStringUtils.wspace WideStringUtils.wspace) with true.
  cbv iota. set (p := fun ch => negb (iswspace ch)).
  destruct (strip_decompose p s) as (Hs & Hh & Hl).
  assert (Hblank : forall l, Forall (fun x => p x = false) l ->
                             WideStringUtils.is_blank iswspace l = true).
  { intros l H. unfold WideStringUtils.is_blank. apply forallb_forall.
    apply Forall_forall. eapply Forall_impl; [|exact H].
    intros y Hy. unfold p in Hy. apply negb_false_iff in Hy. exact Hy. }
  assert (Hpre := Hblank _ (upto_all_fail p s)).
  assert (Hpost := Hblank _ (Forall_rev (upto_all_fail p (rev (find_if p s))))).
  split; [|split; [|split]].
  - exists (upto p s), (rev (upto p (rev (find_if p s)))). auto.
  - destruct (rev (find_if p (rev (find_if p s)))) as [|x r]; [reflexivity|].
    simpl. specialize (Hh x eq_refl). unfold p in Hh.
    apply negb_true_iff in Hh. rewrite Hh. reflexivity.
  - destruct (rev (rev (find_if p (rev (find_if p s))))) as [|x r];
      [reflexivity|].
    simpl. specialize (Hl x eq_refl). unfold p in Hl.
    apply negb_true_iff in Hl. rewrite Hl. reflexivity.
  - split.
    + intros H. rewrite (find_if_none p s); [reflexivity|].
      unfold WideStringUtils.is_blank in H. rewrite forallb_forall in H.
      apply Forall_forall. intros x Hx. unfold p. rewrite (H x Hx).
      reflexivity.
    + intros H. rewrite H in Hs. rewrite Hs.
      unfold WideStringUtils.is_blank in *.
      rewrite forallb_app, Hpre. exact Hpost.
Qed.

(** The wide [trim], for any character, is idempotent. *)
Theorem wide_trim_idempotent
    (iswspace : N -> bool) (s : WideStringUtils.wstr) (c : N) :
  WideStringUtils.trim iswspace (WideStringUtils.trim iswspace s c) c
  = WideStringUtils.trim iswspace s c.
Proof.
  unfold WideStringUtils.trim, WideStringUtils.rtrim, WideStringUtils.ltrim,
    WideStringUtils.rtrim_c, WideStringUtils.ltrim_c.
  destruct (N.eqb c WideStringUtils.wspace); apply strip_idempotent.
Qed.

(** ** Tokens without an option prefix *)



(** ** Options that no segment matches *)

Lemma group_find_if (l : list str) :
  fst (group l) = concat (upto isOptionPrefix l)
  /\ snd (group l) = snd (group (find_if isOptionPrefix l)).
Proof.
  induction l as [|t l [IHc IHs]]; simpl; [split; reflexivity|].
  destruct (group l) as [c segs] eqn:E. simpl in IHc, IHs.
  destruct (isOptionPrefix t) eqn:Ht; simpl.
  - rewrite E, Ht. split; reflexivity.
  - rewrite IHc. split; [reflexivity | exact IHs].
Qed.

(** The segments, one turn of the loop at a time. *)
Lemma segments_step (cursor : list str) :
  segments cursor
  = match find_if isOptionPrefix cursor with
    | [] => []
    | tok :: start1 =>
        concat (tok :: upto isOptionPrefix start1)
        :: segments (find_if isOptionPrefix start1)
    end.
Proof.
  unfold segments. rewrite (proj2 (group_find_if cursor)).
  pose proof (find_if_head isOptionPrefix cursor) as Hh.
  destruct (find_if isOptionPrefix cursor) as [|tok start1]; [reflexivity|].
  simpl. destruct (group_find_if start1) as [Hc Hs].
  destruct (group start1) as [c segs]. simpl in Hc, Hs.
  rewrite Hh. simpl. rewrite Hc, Hs. reflexivity.
Qed.

Lemma getFullOptionName_same (s s' : list cmdOption) (short : str) :
  Forall2 same_declaration s s' ->
  getFullOptionName s' short = getFullOptionName s short.
Proof.
  induction 1 as [|x x' r r' (Hl & Hs & _) _ IH]; simpl; [reflexivity|].
  rewrite <- Hl, <- Hs, IH. reflexivity.
Qed.

Lemma segment_name_same (s s' : list cmdOption) (seg : str) :
  Forall2 same_declaration s s' -> segment_name s' seg = segment_name s seg.
Proof.
  intros H. unfold segment_name.
  rewrite (getFullOptionName_same s s' _ H). reflexivity.
Qed.

(** One turn assigns to the option that the segment names, or to none. *)
Lemma update_option_effect (full : str) (st : cmdParse) (fl : flow) :
  set_ok (m_parameter_options st) = true ->
  update_option full st = Returns fl ->
  match fl with
  | Continue st' =>
      exists v, m_parameter_options st'
                = assign_value (m_parameter_options st)
                    (segment_name (m_parameter_options st) full) v
  | Return _ st' => m_parameter_options st' = m_parameter_options st
  end.
Proof.
  intros Hok. unfold update_option, segment_name, split_name_value.
  pose proof (range_find_if is_delimiter (ltrim_c full "-")) as Hr.
  destruct (find_if is_delimiter (ltrim_c full "-")) as [|dl value];
    simpl; [discriminate|].
  rewrite Hr. clear Hr.
  set (name := trim (upto is_delimiter (ltrim_c full "-")) " ").
  set (v := trim (trim value " ") dquote).
  assert (Hfind : forall n,
    match set_find (make_cmdOption n [] []) (m_parameter_options st) with
    | Some itF =>
        Returns (Continue (set_parameter_options st
          (fst (set_insert (set_paramValue (snd (fst itF)) v) (set_erase itF)))))
    | None => Returns (Return false (logError st (lit "Option not found: " ++ n)))
    end = Returns fl ->
    match fl with
    | Continue st' =>
        exists v, m_parameter_options st'
                  = assign_value (m_parameter_options st) n v
    | Return _ st' => m_parameter_options st' = m_parameter_options st
    end).
  { intros n. unfold assign_value.
    destruct (set_find _ _) as [[[b o] a]|] eqn:Hf; intros [= <-];
      [|reflexivity].
    destruct (update_found st _ b o a v Hok Hf) as (Hi & _).
    exists v. cbn [set_parameter_options m_parameter_options].
    change (snd (fst (b, o, a))) with o. exact Hi. }
  destruct (_ && _).
  - apply Hfind.
  - destruct (getFullOptionName _ name) as [|c n] eqn:Hn.
    + intros [= <-]. reflexivity.
    + apply Hfind.
Qed.

Lemma get_param_option_ext (st st' : cmdParse) (n : str) :
  m_parameter_options st' = m_parameter_options st ->
  get_param_option st' n = get_param_option st n.
Proof. unfold get_param_option. intros ->. reflexivity. Qed.

Lemma assign_value_other (st st' : cmdParse) (name v n : str) :
  m_parameter_options st' = assign_value (m_parameter_options st) name v ->
  make_lower name <> make_lower n ->
  get_param_option st' n = get_param_option st n.
Proof.
  intros Ho Hne.
  rewrite (get_param_option_ext
             (set_parameter_options st
                (assign_value (m_parameter_options st) name v)) st' n Ho).
  rewrite assign_value_lookup.
  destruct (str_eqb (make_lower n) (make_lower name)) eqn:E.
  - apply str_eqb_eq in E. exfalso. apply Hne. symmetry. exact E.
  - rewrite andb_false_r. reflexivity.
Qed.

(** The parse loop leaves alone every option that no segment of the range
    it walks through names. *)
Lemma parse_loop_unmatched (cursor : list str) (st : cmdParse) b st' (n : str) :
  set_ok (m_parameter_options st) = true ->
  parse_loop cursor st = Returns (b, st') ->
  (forall seg, In seg (segments cursor) ->
               make_lower (segment_name (m_parameter_options st) seg)
               <> make_lower n) ->
  get_param_option st' n = get_param_option st n.
Proof.
  remember (length cursor) as k eqn:Hk.
  revert cursor st Hk.
  induction k as [k IH] using lt_wf_ind. intros cursor st Hk Hok.
  rewrite parse_loop_step, segments_step.
  destruct cursor as [|t l].
  { intros [= <- <-] _. reflexivity. }
  pose proof (find_if_length isOptionPrefix (t :: l)) as Hlen.
  destruct (find_if isOptionPrefix (t :: l)) as [|tok start1]; [discriminate|].
  destruct (update_option _ st) as [[st1|b1 st1]|f] eqn:Hu; [| |discriminate].
  - intros Hp Hseg.
    pose proof (update_option_preserved _ _ _ Hok Hu) as Hpres.
    apply (update_option_effect _ _ _ Hok) in Hu. destruct Hu as (v & Ho).
    cbn [flow_state] in Hpres.
    pose proof (find_if_length isOptionPrefix start1).
    transitivity (get_param_option st1 n).
    + apply (IH (length (find_if isOptionPrefix start1))
                ltac:(simpl in *; lia) _ _ eq_refl); [|exact Hp|].
      * rewrite (preserved_set_ok _ _ Hpres). exact Hok.
      * intros seg Hin.
        destruct Hpres as (_ & _ & Hsame & _).
        rewrite (segment_name_same _ _ seg Hsame).
        apply Hseg. right. exact Hin.
    + apply (assign_value_other st st1 _ v n Ho).
      apply Hseg. left. reflexivity.
  - intros [= <- <-] _.
    apply (update_option_effect _ _ _ Hok) in Hu.
    apply get_param_option_ext. exact Hu.
Qed.

Lemma init_unmatched (argc : Z) (argv : list str) (st : cmdParse) b st' (n : str) :
  set_ok (m_parameter_options st) = true ->
  init argc argv st = Returns (b, st') ->
  (forall seg, In seg (segments (get_arguments st')) ->
               make_lower (segment_name (m_parameter_options st) seg)
               <> make_lower n) ->
  get_param_option st' n = get_param_option st n.
Proof.
  intros Hok. unfold init, get_arguments.
  destruct (Z.leb_spec argc 0) as [H|H].
  - intros [= <- <-] _. reflexivity.
  - destruct (nth_error argv 0) as [exe|]; [|discriminate].
    destruct (copy_arguments _ _ _ _) as [st1|f] eqn:Hc; [|discriminate].
    simpl. unfold parseOptions. intros Hp Hseg.
    apply copy_arguments_spec in Hc. destruct Hc as (_ & Ho & _).
    cbn [set_executable_name m_parameter_options] in Ho.
    pose proof (parse_loop_frame _ _ _ _ Hp) as (_ & Ha & _).
    rewrite <- (get_param_option_ext st st1 n Ho).
    apply (parse_loop_unmatched _ _ _ _ n) in Hp; [exact Hp| |].
    + rewrite Ho. exact Hok.
    + rewrite Ho, <- Ha. exact Hseg.
Qed.

(** Declaring an option does not touch the options of other names. *)
Lemma set_find_after_insert (k o : cmdOption) (s : list cmdOption) :
  key o <> key k ->
  match set_find k (fst (set_insert o s)), set_find k s with
  | Some (_, x, _), Some (_, x', _) => x = x'
  | None, None => True
  | _, _ => False
  end.
Proof.
  intros Hne.
  assert (Hcase : option_lt o k = true \/ option_lt k o = true).
  { destruct (option_lt o k) eqn:E1; [auto|].
    destruct (option_lt k o) eqn:E2; [auto|].
    exfalso. apply Hne. apply option_lt_total; assumption. }
  induction s as [|x r IH]; simpl.
  - destruct Hcase as [H|H].
    + rewrite H. exact I.
    + rewrite (option_lt_asym _ _ H), H. exact I.
  - destruct (option_lt o x) eqn:Hox.
    + simpl. destruct Hcase as [H|H].
      * rewrite H.
        destruct (option_lt x k).
        -- destruct (set_find k r) as [[[? ?] ?]|]; auto.
        -- destruct (option_lt k x); auto.
      * rewrite (option_lt_asym _ _ H), H.
        pose proof (option_lt_trans _ _ _ H Hox) as Hkx.
        rewrite (option_lt_asym _ _ Hkx), Hkx. exact I.
    + destruct (option_lt x o) eqn:Hxo.
      * destruct (set_insert o r) as [r' i]. simpl in *.
        destruct (option_lt x k).
        -- destruct (set_find k r') as [[[? ?] ?]|],
                    (set_find k r) as [[[? ?] ?]|]; auto.
        -- destruct (option_lt k x); auto.
      * simpl. destruct (option_lt x k).
        -- destruct (set_find k r) as [[[? ?] ?]|]; auto.
        -- destruct (option_lt k x); auto.
Qed.

Lemma add_param_option_other (st : cmdParse) (o : cmdOption) (n : str) :
  make_lower (longName o) <> make_lower n ->
  get_param_option (snd (add_param_option st o)) n = get_param_option st n.
Proof.
  intros Hne.
  pose proof (set_find_after_insert (make_cmdOption n [] []) o
                (m_parameter_options st) Hne) as H.
  assert (E : m_parameter_options (snd (add_param_option st o))
              = fst (set_insert o (m_parameter_options st))).
  { unfold add_param_option.
    destruct (set_insert o (m_parameter_options st)) as [s [|]]; reflexivity. }
  unfold get_param_option. rewrite E.
  destruct (set_find _ (fst _)) as [[[? x] ?]|],
           (set_find _ (m_parameter_options st)) as [[[? x'] ?]|];
    try contradiction; [exact H | reflexivity].
Qed.

(** ** Defaults and assigned values *)

(** C2, as the code has it: the accessors read [paramValue] only and the
    default stays in [defaultValue].  An option, as declared, reads back
    as the empty text and its integer accessor throws
    [std::invalid_argument]; declaring other options does not touch it; no
    parse changes a default; a parse leaves every option that none of its
    segments names exactly as it was, so such an option still reads back
    empty and still throws; once the segment [--L:23] is parsed the
    integer accessor of [L] returns 23 and its default is the one before,
    "1000" for [BufferSize]. *)
Theorem default_kept_apart_from_value :
  (forall (st st' : cmdParse) (name d short : str),
      add_param_option st (make_cmdOption name d short) = (true, st') ->
      defaultValue (get_param_option st' name) = d
      /\ get_value_string (get_param_option st' name) = []
      /\ get_value_int (get_param_option st' name) = invalid_argument)
  /\ (forall (st : cmdParse) (o : cmdOption) (name : str),
         make_lower (longName o) <> make_lower name ->
         get_param_option (snd (add_param_option st o)) name
         = get_param_option st name)
  /\ (forall (st : cmdParse) (argc : Z) (argv : list str) b st' (name : str),
         set_ok (m_parameter_options st) = true ->
         init argc argv st = Returns (b, st') ->
         defaultValue (get_param_option st' name)
         = defaultValue (get_param_option st name))
  /\ (forall (st : cmdParse) (argc : Z) (argv : list str) b st' (name : str),
         set_ok (m_parameter_options st) = true ->
         init argc argv st = Returns (b, st') ->
         (forall seg, In seg (segments (get_arguments st')) ->
                      make_lower (segment_name (m_parameter_options st) seg)
                      <> make_lower name) ->
         get_param_option st' name = get_param_option st name
         /\ (paramValue (get_param_option st name) = [] ->
             get_value_string (get_param_option st' name) = []
             /\ get_value_int (get_param_option st' name) = invalid_argument))
  /\ (forall (st : cmdParse) (exe L : str),
         set_ok (m_parameter_options st) = true ->
         m_arguments st = [] ->
         plain_name L = true ->
         has_param_option st L = true ->
         exists st',
           init 2 [exe; lit "--" ++ L ++ ":"%char :: lit "23"] st
           = Returns (true, st')
           /\ get_value_int (get_param_option st' L) = Value 23
           /\ defaultValue (get_param_option st' L)
              = defaultValue (get_param_option st L))
  /\ (exists st',
         init 2 [lit "Sample.exe"; lit "--BufferSize:23"] sample
         = Returns (true, st')
         /\ get_value_int (get_param_option st' (lit "BufferSize")) = Value 23
         /\ defaultValue (get_param_option st' (lit "BufferSize")) = lit "1000"
         /\ get_value_string (get_param_option st' (lit "OutputFile")) = []
         /\ defaultValue (get_param_option st' (lit "OutputFile"))
            = lit "output.txt").
Proof.
  split; [|split; [|split; [|split; [|split]]]].
  - intros st st' name d short. unfold add_param_option.
    destruct (set_insert _ _) as [s [|]] eqn:Hi; [|discriminate].
    intros [= <-].
    destruct (set_find_inserted (make_cmdOption name [] [])
                (make_cmdOption name d short) _ _ eq_refl Hi) as (b & a & Hf).
    unfold get_param_option. cbn [m_parameter_options set_parameter_options].
    rewrite Hf. repeat split.
  - intros st o name Hne. apply add_param_option_other. exact Hne.
  - intros st argc argv b st' name Hok Hinit.
    destruct (init_preserved _ _ _ _ _ Hok Hinit) as (Hsame & _).
    pose proof (set_find_same (make_cmdOption name [] []) _ _ Hsame) as H.
    unfold get_param_option.
    destruct (set_find _ (m_parameter_options st)) as [[[? o] ?]|],
             (set_find _ (m_parameter_options st')) as [[[? o'] ?]|];
      try contradiction; [|reflexivity].
    destruct H as (_ & _ & Hd). symmetry. exact Hd.
  - intros st argc argv b st' name Hok Hinit Hseg.
    pose proof (init_unmatched _ _ _ _ _ name Hok Hinit Hseg) as E.
    split; [exact E|]. rewrite E. intros Hv.
    unfold get_value_string, get_value_int. rewrite Hv. split; reflexivity.
  - intros st exe L Hok Ha HL Hhas.
    unfold has_param_option in Hhas.
    destruct (set_find (make_cmdOption L [] []) (m_parameter_options st))
      as [[[b o] a]|] eqn:Hf; [clear Hhas|discriminate].
    pose proof (init_one_long_option st exe L (lit "23") ":"%char
                  (lit "--" ++ L ++ ":"%char :: lit "23") []
                  b o a Hok Ha HL eq_refl Hf) as H.
    simpl length in H. change (Z.of_nat 2) with 2%Z in H.
    eexists. split.
    + apply H.
      * cbn [map]. f_equal.
        apply (trim_token_tail ("-"%char :: L) (":"%char :: lit "23") "-"%char);
          [reflexivity | discriminate | reflexivity].
      * reflexivity.
      * constructor.
      * cbn [concat]. rewrite app_nil_r. reflexivity.
    + unfold get_param_option. cbn [m_parameter_options].
      rewrite (lookup_updated st _ b o a _ Hf) by reflexivity.
      rewrite Hf. split; reflexivity.
  - eexists. split; [vm_compute; reflexivity|]. repeat split.
Qed.

Lemma default_kept_apart_from_value_witness :
  exists st',
    init 2 [lit "Sample.exe"; lit "-o:x.txt"] sample = Returns (true, st')
    /\ get_param_option st' (lit "BufferSize")
       = get_param_option sample (lit "BufferSize")
    /\ get_value_string (get_param_option st' (lit "BufferSize")) = []
    /\ get_value_int (get_param_option st' (lit "BufferSize"))
       = invalid_argument.
Proof.
  eexists. split; [vm_compute; reflexivity|].
  assert (Hseg : forall seg,
    In seg (segments [lit "-o:x.txt"]) ->
    make_lower (segment_name (m_parameter_options sample) seg)
    <> make_lower (lit "BufferSize")).
  { intros seg [<-|[]]. vm_compute. discriminate. }
  match goal with
  | |- get_param_option ?s _ = _ /\ _ =>
      assert (Hinit : init 2 [lit "Sample.exe"; lit "-o:x.txt"] sample
                      = Returns (true, s)) by (vm_compute; reflexivity);
      destruct (proj1 (proj2 (proj2 (proj2 default_kept_apart_from_value)))
                  sample 2%Z [lit "Sample.exe"; lit "-o:x.txt"] true s
                  (lit "BufferSize") eq_refl Hinit Hseg) as (He & Hv)
  end.
  split; [exact He|]. apply Hv. reflexivity.
Defined.
